(** * painters-tape-portfolio: the two motion engines

    Shallow embedding of

    - [src/components/ImageAnimation.tsx]: the visibility-gated frame player
      (a React component with three state cells, an interval timer and an
      intersection observer), and
    - [src/components/ThreeScene.tsx], component [Model]: the damped
      kinematics integrator driven by scroll and pointer events.

    React is modelled the way the components use it: a component instance is
    a record of its state cells, its refs and the host resources it holds
    (live interval timers, the connected observer).  Callbacks close over the
    values of the render that created them; that render is recorded with the
    callback ([Render]) and read back when the callback runs.  After every
    event the pending state is rendered and the effects whose dependency
    arrays changed run their clean-up and their body, until nothing is
    pending.

    JavaScript numbers that carry quantities (velocities, angles, scroll
    offsets) are binary64 floats; the frame index, which only ever holds
    0, 1, 2, ... is a [nat]. *)

From Stdlib Require Import ZArith Bool Floats Lia.
From stdpp Require Import base option list gmap strings.

Set Warnings "-inexact-float,-register-all".

(** ** JavaScript numbers

    [Math.min] and [Math.max] as ECMAScript defines them: any NaN argument
    gives NaN; otherwise the arguments are folded from +Infinity (from
    -Infinity for [max]), with -0 below +0. *)

Module JS.

Definition is_neg_zero (f : float) : bool :=
  match classify f with NZero => true | _ => false end.

Definition is_pos_zero (f : float) : bool :=
  match classify f with PZero => true | _ => false end.

Definition min_step (lowest number : float) : float :=
  if is_neg_zero number && is_pos_zero lowest then number
  else if (number <? lowest)%float then number
  else lowest.

Definition max_step (highest number : float) : float :=
  if is_pos_zero number && is_neg_zero highest then number
  else if (highest <? number)%float then number
  else highest.

Definition Math_min (args : list float) : float :=
  if existsb is_nan args then nan else fold_left min_step args infinity.

Definition Math_max (args : list float) : float :=
  if existsb is_nan args then nan else fold_left max_step args neg_infinity.

End JS.

(** ** src/components/ImageAnimation.tsx *)

Module ImageAnimation.

(** The props: [{ height, frames, msBetweenFrame = 15 }].  [height] is a
    style object that is only spread into the markup.  [msBetweenFrame] is
    optional; [None] is an omitted (undefined) prop. *)
Record Props := mkProps {
  frames : list string;
  msBetweenFrame : option Z
}.

(** The default of the parameter list, [msBetweenFrame = 15]: it applies
    when the prop is omitted and only then. *)
Definition cadence (p : Props) : Z := default 15%Z (msBetweenFrame p).

(** What the callbacks of one render close over: [currentFrame] and
    [isAnimating] as that render saw them. *)
Record Render := mkRender {
  r_currentFrame : nat;
  r_isAnimating : bool
}.

(** A live [setInterval] timer of the host: its delay and the render whose
    callback it runs. *)
Record Interval := mkInterval {
  delay : Z;
  owner : Render
}.

(** One mounted component instance. *)
Record Player := mkPlayer {
  currentFrame : nat;                 (* useState(0) *)
  isAnimating : bool;                 (* useState(false) *)
  highResLoaded : bool;               (* useState(false) *)
  animationInterval : option nat;     (* useRef(undefined): last timer id *)
  intervals : gmap nat Interval;      (* the host's live interval timers *)
  nextInterval : nat;                 (* the id the next setInterval returns *)
  observer : option Render;           (* the connected IntersectionObserver *)
  committed : Render                  (* the render whose effects ran last *)
}.

Definition setCurrentFrame (n : nat) (s : Player) : Player :=
  mkPlayer n (isAnimating s) (highResLoaded s) (animationInterval s)
           (intervals s) (nextInterval s) (observer s) (committed s).

Definition setIsAnimating (b : bool) (s : Player) : Player :=
  mkPlayer (currentFrame s) b (highResLoaded s) (animationInterval s)
           (intervals s) (nextInterval s) (observer s) (committed s).

Definition setHighResLoaded (b : bool) (s : Player) : Player :=
  mkPlayer (currentFrame s) (isAnimating s) b (animationInterval s)
           (intervals s) (nextInterval s) (observer s) (committed s).

Definition setAnimationInterval (h : option nat) (s : Player) : Player :=
  mkPlayer (currentFrame s) (isAnimating s) (highResLoaded s) h
           (intervals s) (nextInterval s) (observer s) (committed s).

Definition setObserver (o : option Render) (s : Player) : Player :=
  mkPlayer (currentFrame s) (isAnimating s) (highResLoaded s)
           (animationInterval s) (intervals s) (nextInterval s) o (committed s).

Definition setCommitted (r : Render) (s : Player) : Player :=
  mkPlayer (currentFrame s) (isAnimating s) (highResLoaded s)
           (animationInterval s) (intervals s) (nextInterval s) (observer s) r.

(** [clearInterval(h)]: removes the timer named by [h]; [undefined] or the id
    of a timer that is gone clears nothing. *)
Definition clearInterval (h : option nat) (s : Player) : Player :=
  match h with
  | Some id =>
      mkPlayer (currentFrame s) (isAnimating s) (highResLoaded s)
               (animationInterval s) (delete id (intervals s))
               (nextInterval s) (observer s) (committed s)
  | None => s
  end.

(** [setInterval(callback, ms)]: a new live timer under a fresh id, which is
    returned. *)
Definition setInterval (callback : Render) (ms : Z) (s : Player) : nat * Player :=
  let id := nextInterval s in
  (id, mkPlayer (currentFrame s) (isAnimating s) (highResLoaded s)
                (animationInterval s)
                (<[id := mkInterval ms callback]> (intervals s))
                (S id) (observer s) (committed s)).

(** Lines 23-27. *)
Definition startAnimation (r : Render) (s : Player) : Player :=
  if negb (r_isAnimating r) then setIsAnimating true s else s.

(** Lines 29-34. *)
Definition stopAnimation (r : Render) (s : Player) : Player :=
  if r_isAnimating r
  then setIsAnimating false (clearInterval (animationInterval s) s)
  else s.

(** Lines 36-39. *)
Definition resetAnimation (r : Render) (s : Player) : Player :=
  stopAnimation r (setCurrentFrame 0 s).

(** The two branches of the updater passed to [setCurrentFrame] by the
    interval callback, lines 44-50. *)
Inductive TickBranch := Hold | Advance.

Definition tickBranch (p : Props) (prevFrame : nat) : TickBranch :=
  if prevFrame + 1 =? length (frames p) then Hold else Advance.

(** One firing of the interval callback created by render [r]. *)
Definition onTick (p : Props) (r : Render) (s : Player) : Player :=
  let prevFrame := currentFrame s in
  match tickBranch p prevFrame with
  | Hold => setCurrentFrame prevFrame (stopAnimation r s)
  | Advance => setCurrentFrame (prevFrame + 1) s
  end.

(** The interval effect, lines 41-55: body and clean-up. *)
Definition intervalEffect (p : Props) (r : Render) (s : Player) : Player :=
  if r_isAnimating r
  then let '(id, s') := setInterval r (cadence p) s in
       setAnimationInterval (Some id) s'
  else s.

Definition intervalCleanup (s : Player) : Player :=
  clearInterval (animationInterval s) s.

(** The observer effect, lines 57-79: body and clean-up.  [imageRef.current]
    is the placeholder image, present in every commit. *)
Definition observerEffect (r : Render) (s : Player) : Player :=
  setObserver (Some r) s.

Definition observerCleanup (r : Render) (s : Player) : Player :=
  setObserver None (stopAnimation r s).

(** The render of the state as it stands. *)
Definition snapshot (s : Player) : Render :=
  mkRender (currentFrame s) (isAnimating s).

(** Dependency arrays.  [frames.length] and [msBetweenFrame] are props of
    the instance; [startAnimation], [stopAnimation] and [resetAnimation] are
    memoised on [isAnimating], so they change exactly when it does. *)
Definition intervalDepsChanged (old new : Render) : bool :=
  negb (eqb (r_isAnimating old) (r_isAnimating new)).

Definition observerDepsChanged (old new : Render) : bool :=
  negb (r_currentFrame old =? r_currentFrame new)
  || intervalDepsChanged old new.

(** One commit: the clean-ups of the effects whose dependencies changed, as
    the previous render created them, then the bodies of the same effects as
    the new render creates them. *)
Definition commit (p : Props) (s : Player) : Player :=
  let old := committed s in
  let new := snapshot s in
  let d1 := intervalDepsChanged old new in
  let d2 := observerDepsChanged old new in
  let s1 := if d1 then intervalCleanup s else s in
  let s2 := if d2 then observerCleanup old s1 else s1 in
  let s3 := if d1 then intervalEffect p new s2 else s2 in
  let s4 := if d2 then observerEffect new s3 else s3 in
  setCommitted new s4.

Definition settled (s : Player) : bool :=
  negb (observerDepsChanged (committed s) (snapshot s)).

(** Renders until no effect is pending; React itself gives up after 50
    nested updates. *)
Fixpoint flush (p : Props) (fuel : nat) (s : Player) : Player :=
  if settled s then s
  else match fuel with
       | 0 => s
       | S fuel' => flush p fuel' (commit p s)
       end.

Definition renderLimit : nat := 50.

Arguments flush : simpl never.

(** Mounting: the first render sees the initial state and every effect runs
    its body. *)
Definition mount (p : Props) : Player :=
  let r0 := mkRender 0 false in
  observerEffect r0
    (intervalEffect p r0 (mkPlayer 0 false false None ∅ 0 None r0)).

(** What can happen to a mounted player: the observer reports an entry, a
    timer fires, the high-resolution image finishes loading. *)
Inductive Event :=
| Intersection (isIntersecting : bool)
| Tick (id : nat)
| HighResOnLoad.

Definition handle (p : Props) (e : Event) (s : Player) : Player :=
  match e with
  | Intersection isIntersecting =>
      match observer s with
      | Some r => if isIntersecting then startAnimation r s
                  else resetAnimation r s
      | None => s
      end
  | Tick id =>
      match intervals s !! id with
      | Some iv => onTick p (owner iv) s
      | None => s
      end
  | HighResOnLoad => setHighResLoaded true s
  end.

Definition step (p : Props) (s : Player) (e : Event) : Player :=
  flush p renderLimit (handle p e s).

Definition run (p : Props) (s : Player) (trace : list Event) : Player :=
  fold_left (step p) trace s.

(** A tick is received when the timer it names is live. *)
Definition fires (s : Player) (e : Event) : bool :=
  match e with
  | Tick id => bool_decide (is_Some (intervals s !! id))
  | _ => false
  end.

Fixpoint ticksReceived (p : Props) (s : Player) (trace : list Event) : nat :=
  match trace with
  | [] => 0
  | e :: trace' =>
      (if fires s e then 1 else 0) + ticksReceived p (step p s e) trace'
  end.

(** The element stays in view: the observer never reports a
    non-intersecting entry. *)
Definition stays_visible (trace : list Event) : bool :=
  forallb (fun e => match e with Intersection false => false | _ => true end)
          trace.

(** Unmounting runs the clean-up of both effects, as the last committed
    render created them. *)
Definition unmount (s : Player) : Player :=
  observerCleanup (committed s) (intervalCleanup s).

(** Lines 12-21. *)
Definition scale (isMobile : bool) (windowWidth windowHeight : float) : float :=
  let divisor := (if isMobile then 350 else 300)%float in
  let scaleFactorX := (windowWidth / divisor)%float in
  let scaleFactorY := (windowHeight / divisor)%float in
  JS.Math_min [JS.Math_max [scaleFactorX; scaleFactorY; 1.2%float];
               (if isMobile then 2.4 else 3)%float].

(** Line 67: the observer's threshold. *)
Definition threshold (isMobile : bool) : float :=
  (if isMobile then 0 else 0.1)%float.

(** [frames[currentFrame]] inside a template literal: an index outside the
    array reads [undefined], which prints as that word. *)
Definition frameName (p : Props) (s : Player) : string :=
  match frames p !! currentFrame s with
  | Some f => f
  | None => "undefined"
  end.

(** Lines 86-87. *)
Definition lowResSrc (p : Props) (s : Player) : string :=
  "/tape-falling-frames-placeholder/" +:+ frameName p s.

Definition highResSrc (isMobile : bool) (p : Props) (s : Player) : string :=
  "/tape-falling-frames" +:+ (if isMobile then "-min" else EmptyString)
    +:+ "/" +:+ frameName p s.

(** The style fields of the two images that depend on the state, lines 102,
    103, 120 and 122. *)
Record Layer := mkLayer { opacity : Z; zIndex : Z }.

Definition lowResLayer (s : Player) : Layer :=
  mkLayer (if highResLoaded s then 0 else 1) (if highResLoaded s then 4 else 3).

Definition highResLayer (s : Player) : Layer :=
  mkLayer (if highResLoaded s then 1 else 0) 4.

End ImageAnimation.

(** ** src/components/ThreeScene.tsx, component [Model] *)

Module ThreeScene.

Local Open Scope float_scope.

(** [THREE.Vector3]; the same record stands for the [x], [y], [z] of an
    Euler rotation. *)
Record Vector3 := mkVector3 { x : float; y : float; z : float }.

(** The transform of the object held by [modelRef.current]. *)
Record Object3D := mkObject3D {
  position : Vector3;
  rotation : Vector3;
  scale : Vector3
}.

(** An object of the scene graph as [applySmoothShading] sees it. *)
Record Shading := mkShading {
  flatShading : bool;
  smoothShading : bool;        (* material.shading = THREE.SmoothShading *)
  vertexNormals : bool;        (* geometry.computeVertexNormals was called *)
  needsUpdate : bool;
  castShadow : bool
}.

Inductive Node :=
| mkNode (isMesh : bool) (shading : Shading) (children : list Node).

(** The lights [setupCinematicLighting] adds. *)
Inductive LightKind := DirectionalLight | AmbientLight | SpotLight.

Record Shadow := mkShadow {
  mapWidth : Z;
  mapHeight : Z;
  cameraNear : float;
  cameraFar : float
}.

Record Light := mkLight {
  kind : LightKind;
  color : Z;
  intensity : float;
  lightPosition : option Vector3;     (* [None]: position.set is not called *)
  lightCastShadow : option bool;      (* [None]: castShadow is not assigned *)
  shadow : option Shadow              (* [None]: the shadow fields are not assigned *)
}.

(** [modelRef.current.parent]: the objects below it and, in the order of
    [scene.add], the lights added to it. *)
Record Scene := mkScene {
  objects : list Node;
  lights : list Light
}.

(** The state cells of [Model], lines 17-23. *)
Record State := mkState {
  isSetup : bool;
  lastScrollY : float;
  direction : float;
  positionalVelocity : float;
  rotationalXVelocity : float;
  rotationalYVelocity : float;
  rotationalZVelocity : float
}.

(** One mounted [Model]: its state, the object behind [modelRef] ([None]
    while the ref is empty) and the parent scene. *)
Record World := mkWorld {
  state : State;
  modelRef : option Object3D;
  parent : Scene
}.

(** Lines 24-26. *)
Definition positionalVelocityDampingFactor : float := 0.91.
Definition rotationalVelocityDampingFactor : float := 0.97.
Definition scrollDampingFactor : float := 0.92.

(** [window.innerWidth] and [window.innerHeight]. *)
Record Window := mkWindow { innerWidth : float; innerHeight : float }.

(** An entry of a raycast result or of a pointer event's [intersections]. *)
Record Face := mkFace { normal : Vector3 }.

Record Intersection := mkIntersection {
  face : Face;
  point : Vector3;
  distance : float
}.

(** State setters, each taking the updater function the source passes. *)
Definition setIsSetup (b : bool) (w : World) : World :=
  let s := state w in
  mkWorld (mkState b (lastScrollY s) (direction s) (positionalVelocity s)
             (rotationalXVelocity s) (rotationalYVelocity s)
             (rotationalZVelocity s))
          (modelRef w) (parent w).

Definition setLastScrollY (f : float → float) (w : World) : World :=
  let s := state w in
  mkWorld (mkState (isSetup s) (f (lastScrollY s)) (direction s)
             (positionalVelocity s) (rotationalXVelocity s)
             (rotationalYVelocity s) (rotationalZVelocity s))
          (modelRef w) (parent w).

Definition setDirection (f : float → float) (w : World) : World :=
  let s := state w in
  mkWorld (mkState (isSetup s) (lastScrollY s) (f (direction s))
             (positionalVelocity s) (rotationalXVelocity s)
             (rotationalYVelocity s) (rotationalZVelocity s))
          (modelRef w) (parent w).

Definition setPositionalVelocity (f : float → float) (w : World) : World :=
  let s := state w in
  mkWorld (mkState (isSetup s) (lastScrollY s) (direction s)
             (f (positionalVelocity s)) (rotationalXVelocity s)
             (rotationalYVelocity s) (rotationalZVelocity s))
          (modelRef w) (parent w).

Definition setRotationalXVelocity (f : float → float) (w : World) : World :=
  let s := state w in
  mkWorld (mkState (isSetup s) (lastScrollY s) (direction s)
             (positionalVelocity s) (f (rotationalXVelocity s))
             (rotationalYVelocity s) (rotationalZVelocity s))
          (modelRef w) (parent w).

Definition setRotationalYVelocity (f : float → float) (w : World) : World :=
  let s := state w in
  mkWorld (mkState (isSetup s) (lastScrollY s) (direction s)
             (positionalVelocity s) (rotationalXVelocity s)
             (f (rotationalYVelocity s)) (rotationalZVelocity s))
          (modelRef w) (parent w).

Definition setRotationalZVelocity (f : float → float) (w : World) : World :=
  let s := state w in
  mkWorld (mkState (isSetup s) (lastScrollY s) (direction s)
             (positionalVelocity s) (rotationalXVelocity s)
             (rotationalYVelocity s) (f (rotationalZVelocity s)))
          (modelRef w) (parent w).

(** A mutation of the object behind [modelRef.current].  With an empty ref
    the source statement throws on the property access and nothing is
    changed. *)
Definition onModel (f : Object3D → Object3D) (w : World) : World :=
  mkWorld (state w) (f <$> modelRef w) (parent w).

Definition onParent (f : Scene → Scene) (w : World) : World :=
  mkWorld (state w) (modelRef w) (f (parent w)).

(** Statements run in sequence. *)
Definition block (statements : list (World → World)) : World → World :=
  λ w, fold_left (λ w' statement, statement w') statements w.

(** Lines 42-55.  [scene.traverse] visits the scene and every descendant;
    the lights it meets are no meshes. *)
Definition smooth (s : Shading) : Shading :=
  mkShading false true true true true.

Fixpoint traverseSmooth (n : Node) : Node :=
  match n with
  | mkNode isMesh shading children =>
      mkNode isMesh (if isMesh then smooth shading else shading)
             (map traverseSmooth children)
  end.

Definition applySmoothShading (scene : Scene) : Scene :=
  mkScene (map traverseSmooth (objects scene)) (lights scene).

(** Lines 57-79. *)
Definition initRotations : list Vector3 := [
  mkVector3 1.35 0.26 (-2.48);
  mkVector3 0.59 0.27 (-1.05);
  mkVector3 1.54 1.14 (-2.21);
  mkVector3 1.33 0.68 (-0.79);
  mkVector3 2.25 0.13 (-0.43);
  mkVector3 0.41 0.88 1.99;
  mkVector3 2.13 0.99 2.47
].

(** [Math.floor(Math.random() * initRotations.length)] is an index into the
    table; [pick] is the number drawn, brought below the table's length. *)
Definition adjustModelRotation (pick : nat) : World → World :=
  onModel (λ o,
    match initRotations !! (pick mod length initRotations)%nat with
    | Some r => mkObject3D (position o) (mkVector3 (x r) (y r) (z r)) (scale o)
    | None => o
    end).

(** Lines 81-96. *)
Definition scaleFactor (isMobile : bool) (win : Window) : float :=
  let divisor := if isMobile then 550 else 800 in
  let scaleFactorX := innerWidth win / divisor in
  let scaleFactorY := innerHeight win / divisor in
  JS.Math_min [scaleFactorX; scaleFactorY; 0.8].

Definition adjustModelScale (isMobile : bool) (win : Window) : World → World :=
  onModel (λ o,
    let f := scaleFactor isMobile win in
    mkObject3D (position o) (rotation o) (mkVector3 f f f)).

(** Lines 98-134. *)
Definition keyLight : Light :=
  mkLight DirectionalLight 0xffffff 1.2 (Some (mkVector3 50 100 50))
          (Some true) (Some (mkShadow 1024 1024 0.5 500)).

Definition fillLight : Light :=
  mkLight DirectionalLight 0xffffff 0.5 (Some (mkVector3 (-50) 50 50))
          (Some false) None.

Definition rimLight : Light :=
  mkLight DirectionalLight 0xffffff 1.0 (Some (mkVector3 0 100 (-100)))
          (Some false) None.

Definition ambientLight : Light :=
  mkLight AmbientLight 0x404040 0.3 None None None.

Definition spotlight : Light :=
  mkLight SpotLight 0xffffff 0.8 (Some (mkVector3 100 200 100))
          (Some true) (Some (mkShadow 1024 1024 0.5 500)).

Definition add (l : Light) (scene : Scene) : Scene :=
  mkScene (objects scene) (lights scene ++ [l]).

Definition setupCinematicLighting (scene : Scene) : Scene :=
  add spotlight (add ambientLight (add rimLight (add fillLight
    (add keyLight scene)))).

(** Lines 136-157; the [console.log] changes nothing. *)
Definition handleRaycastIntersection (intersections : list Intersection)
  : World → World :=
  match intersections with
  | intersection :: _ =>
      let normal := normal (face intersection) in
      block [
        setRotationalXVelocity (λ prev, prev + x normal * 0.5);
        setRotationalYVelocity (λ prev, prev + y normal * 0.5);
        setRotationalZVelocity (λ prev, prev + z normal * 0.5)
      ]
  | [] => λ w, w
  end.

(** Lines 160-186.  [lastScrollY] is the value the handler closes over: the
    scroll effect is re-subscribed whenever it changes. *)
Definition handleScroll (r : State) (currentScrollY : float) : World → World :=
  if currentScrollY =? lastScrollY r then
    block [
      setDirection (λ _, 0);
      setLastScrollY (λ _, currentScrollY)
    ]
  else
    let scrollDirection := if lastScrollY r <? currentScrollY then -1 else 1 in
    block [
      setPositionalVelocity (λ _, abs (currentScrollY - lastScrollY r) * 0.005);
      setDirection (λ _, scrollDirection);
      setLastScrollY (λ _, currentScrollY)
    ].

(** Lines 195-203: the body of the set-up effect, as render [r] created
    it. *)
Definition setupEffect (isMobile : bool) (r : State) (win : Window) (pick : nat)
  : World → World :=
  λ w,
    match modelRef w with
    | Some _ =>
        if negb (isSetup r) then
          block [
            adjustModelScale isMobile win;
            adjustModelRotation pick;
            onParent applySmoothShading;
            onParent setupCinematicLighting;
            setIsSetup true
          ] w
        else w
    | None => w
    end.

(** Lines 210-239: the per-frame callback, as render [r] created it.
    [intersects] is what the raycast of lines 211-212 returned; the call
    that would use it is commented out.  With an empty [modelRef] the
    raycast itself throws, and nothing of the callback has run. *)
Definition dampenDampeningFactor : float := 0.1.

Definition useFrame (r : State) (intersects : list Intersection)
  : World → World :=
  λ w,
    match modelRef w with
    | Some _ =>
        block [
         onModel (λ o, mkObject3D
           (mkVector3 (x (position o))
                      (y (position o) + positionalVelocity r * direction r)
                      (z (position o)))
           (rotation o) (scale o));
         onModel (λ o, mkObject3D
           (mkVector3 (x (position o))
                      (y (position o) * scrollDampingFactor)
                      (z (position o)))
           (rotation o) (scale o));
         onModel (λ o, mkObject3D (position o)
           (mkVector3 (x (rotation o) + positionalVelocity r * 0.5 * direction r)
                      (y (rotation o))
                      (z (rotation o)))
           (scale o));
         setPositionalVelocity (λ prevState,
           prevState * positionalVelocityDampingFactor);
         onModel (λ o, mkObject3D (position o)
           (mkVector3
              (x (rotation o) + rotationalXVelocity r
                 * rotationalVelocityDampingFactor * dampenDampeningFactor)
              (y (rotation o) + rotationalYVelocity r
                 * rotationalVelocityDampingFactor * dampenDampeningFactor)
              (z (rotation o) + rotationalZVelocity r
                 * rotationalVelocityDampingFactor * dampenDampeningFactor))
           (scale o));
         setRotationalXVelocity (λ prev, prev * rotationalVelocityDampingFactor);
         setRotationalYVelocity (λ prev, prev * rotationalVelocityDampingFactor);
         setRotationalZVelocity (λ prev, prev * rotationalVelocityDampingFactor)
        ] w
    | None => w
    end.

(** The state at mount, lines 17-23, around whatever [modelRef] holds. *)
Definition initialState : State := mkState false 0 (-1) 0.25 0 0 0.

Definition mount (handle : option Object3D) (scene : Scene) : World :=
  mkWorld initialState handle scene.

(** What can happen to a mounted [Model]. *)
Inductive Event :=
| SetupEffect (win : Window) (pick : nat)    (* the effect of lines 195-203 runs *)
| Resize (win : Window)                      (* window 'resize' *)
| Scroll (scrollY : float)                   (* window 'scroll' *)
| Pointer (intersections : list Intersection)  (* click, pointer over, pointer out *)
| Frame (intersects : list Intersection).    (* one rendered frame *)

(** Every callback is the one the latest render created, so it closes over
    the state as it stands when the event arrives. *)
Definition step (isMobile : bool) (w : World) (e : Event) : World :=
  let r := state w in
  match e with
  | SetupEffect win pick => setupEffect isMobile r win pick w
  | Resize win => adjustModelScale isMobile win w
  | Scroll scrollY => handleScroll r scrollY w
  | Pointer intersections => handleRaycastIntersection intersections w
  | Frame intersects => useFrame r intersects w
  end.

Definition run (isMobile : bool) (w : World) (trace : list Event) : World :=
  fold_left (step isMobile) trace w.

(** A set-up pass is made when the effect runs with a model and the latch
    open. *)
Definition passes (w : World) (e : Event) : bool :=
  match e with
  | SetupEffect _ _ =>
      match modelRef w with
      | Some _ => negb (isSetup (state w))
      | None => false
      end
  | _ => false
  end.

Fixpoint setupPasses (isMobile : bool) (w : World) (trace : list Event) : nat :=
  match trace with
  | [] => 0
  | e :: trace' =>
      ((if passes w e then 1 else 0)
       + setupPasses isMobile (step isMobile w e) trace')%nat
  end.

End ThreeScene.

(** * Order facts about binary64 numbers

    Read off the specification of the primitive comparisons; used for the
    bounds of the two scale computations. *)

Module FloatOrder.

Lemma SFcompare_antisym (a b : spec_float) :
  SFcompare b a = CompOpp <$> SFcompare a b.
Proof.
  destruct a as [sa|sa| |sa ma ea], b as [sb|sb| |sb mb eb]; cbn;
    try reflexivity; try (by destruct sa); try (by destruct sb);
    try (by destruct sa, sb).
  assert (Hm : Pos.compare_cont Eq mb ma = CompOpp (Pos.compare_cont Eq ma mb))
    by (symmetry; apply (Pos.compare_cont_antisym ma mb Eq)).
  destruct sa, sb; cbn; try reflexivity; f_equal;
    rewrite (Z.compare_antisym ea eb), Hm;
    destruct (ea ?= eb)%Z; cbn; rewrite ?CompOpp_involutive; reflexivity.
Qed.

Lemma is_nan_false_compare (a b : float) :
  is_nan a = false → is_nan b = false →
  ∃ c, SFcompare (Prim2SF a) (Prim2SF b) = Some c.
Proof.
  unfold is_nan. intros Ha Hb.
  apply negb_false_iff in Ha, Hb. rewrite FloatAxioms.eqb_spec in Ha, Hb.
  unfold SFeqb in *.
  destruct (Prim2SF a) as [sa|sa| |sa ma ea], (Prim2SF b) as [sb|sb| |sb mb eb];
    cbn in *; try discriminate; eauto.
Qed.

Lemma ltb_false_leb (a b : float) :
  is_nan a = false → is_nan b = false →
  (a <? b)%float = false → (b <=? a)%float = true.
Proof.
  intros Ha Hb. rewrite FloatAxioms.ltb_spec, FloatAxioms.leb_spec. unfold SFltb, SFleb.
  rewrite (SFcompare_antisym (Prim2SF a) (Prim2SF b)).
  destruct (is_nan_false_compare a b Ha Hb) as [c ->]. cbn.
  by destruct c.
Qed.

Local Open Scope float_scope.

Lemma max_step_not_nan (h n : float) :
  is_nan h = false → is_nan n = false → is_nan (JS.max_step h n) = false.
Proof.
  intros Hh Hn. unfold JS.max_step.
  destruct (_ && _); [done|]. by destruct (h <? n).
Qed.

Lemma min_step_not_nan (l n : float) :
  is_nan l = false → is_nan n = false → is_nan (JS.min_step l n) = false.
Proof.
  intros Hl Hn. unfold JS.min_step.
  destruct (_ && _); [done|]. by destruct (n <? l).
Qed.

Lemma max_step_nonzero (h n : float) :
  JS.is_pos_zero n = false → JS.max_step h n = if h <? n then n else h.
Proof. intros Hn. unfold JS.max_step. by rewrite Hn. Qed.

Lemma min_step_nonzero (l n : float) :
  JS.is_neg_zero n = false → JS.min_step l n = if n <? l then n else l.
Proof. intros Hn. unfold JS.min_step. by rewrite Hn. Qed.

Lemma min_step_infinity (n : float) :
  JS.min_step infinity n = if n <? infinity then n else infinity.
Proof.
  unfold JS.min_step. change (JS.is_pos_zero infinity) with false.
  by rewrite andb_false_r.
Qed.

End FloatOrder.

(** * The frame player: what every run keeps *)

Module ImageAnimationProofs.

Import ImageAnimation FloatOrder.

(** Between events a player is in one of two shapes: at rest, with no live
    timer, or playing, with exactly the timer that the render showing the
    current frame started. *)
Definition idle (c : nat) (h : bool) (ai : option nat) (nx : nat) : Player :=
  mkPlayer c false h ai ∅ nx (Some (mkRender c false)) (mkRender c false).

Definition running (p : Props) (c : nat) (h : bool) (id nx : nat) : Player :=
  mkPlayer c true h (Some id)
           {[ id := mkInterval (cadence p) (mkRender c true) ]} nx
           (Some (mkRender c true)) (mkRender c true).

Inductive Inv (p : Props) : Player → Prop :=
| Inv_idle c h ai nx : Inv p (idle c h ai nx)
| Inv_running c h id nx : Inv p (running p c h id nx).

Definition isLoad (e : Event) : bool :=
  match e with HighResOnLoad => true | _ => false end.

Ltac react :=
  cbv [settled commit observerDepsChanged intervalDepsChanged snapshot
       intervalCleanup intervalEffect observerCleanup observerEffect
       startAnimation stopAnimation resetAnimation onTick handle
       setCurrentFrame setIsAnimating setHighResLoaded setAnimationInterval
       setObserver setCommitted clearInterval setInterval idle running
       currentFrame isAnimating highResLoaded animationInterval intervals
       nextInterval observer committed r_currentFrame r_isAnimating
       owner delay negb orb andb eqb fst snd].

Lemma flush_settled p fuel s : settled s = true → flush p fuel s = s.
Proof. intros H. destruct fuel; unfold flush; rewrite H; reflexivity. Qed.

Lemma flush_pending p fuel s :
  settled s = false → flush p (S fuel) s = flush p fuel (commit p s).
Proof. intros H. unfold flush at 1. rewrite H. reflexivity. Qed.

(** The dependency tests on explicit renders. *)
Lemma observerDeps_same r : observerDepsChanged r r = false.
Proof.
  destruct r as [c a]. cbv [observerDepsChanged intervalDepsChanged
    r_currentFrame r_isAnimating]. rewrite Nat.eqb_refl. by destruct a.
Qed.

Lemma observerDeps_playing c a c' a' :
  a ≠ a' → observerDepsChanged (mkRender c a) (mkRender c' a') = true.
Proof.
  intros Ha. cbv [observerDepsChanged intervalDepsChanged
    r_currentFrame r_isAnimating]. destruct (c =? c'), a, a'; done.
Qed.

Lemma observerDeps_frame c a c' a' :
  c ≠ c' → observerDepsChanged (mkRender c a) (mkRender c' a') = true.
Proof.
  intros Hc. cbv [observerDepsChanged r_currentFrame].
  apply Nat.eqb_neq in Hc. by rewrite Hc.
Qed.

Ltac deps :=
  cbv [settled committed snapshot currentFrame isAnimating idle running];
  first [ reflexivity
        | apply observerDeps_same
        | apply observerDeps_playing; done
        | apply observerDeps_frame; done
        | rewrite observerDeps_same; reflexivity
        | rewrite observerDeps_playing by done; reflexivity
        | rewrite observerDeps_frame by done; reflexivity ].

(** A commit once both dependency tests are known. *)
Lemma commit_with (d1 d2 : bool) p s :
  intervalDepsChanged (committed s) (snapshot s) = d1 →
  observerDepsChanged (committed s) (snapshot s) = d2 →
  commit p s =
  setCommitted (snapshot s)
    (let s1 := if d1 then intervalCleanup s else s in
     let s2 := if d2 then observerCleanup (committed s) s1 else s1 in
     let s3 := if d1 then intervalEffect p (snapshot s) s2 else s2 in
     if d2 then observerEffect (snapshot s) s3 else s3).
Proof. intros <- <-. reflexivity. Qed.

Lemma settled_idle c h ai nx : settled (idle c h ai nx) = true.
Proof. deps. Qed.

Lemma settled_running p c h id nx : settled (running p c h id nx) = true.
Proof. deps. Qed.

Lemma mount_idle p : mount p = idle 0 false None 0.
Proof. reflexivity. Qed.

(** ** The commits that occur *)

(** Playback was requested from rest: the interval effect starts a timer. *)
Lemma commit_start p c h ai nx :
  commit p (mkPlayer c true h ai ∅ nx (Some (mkRender c false))
                     (mkRender c false))
  = running p c h nx (S nx).
Proof.
  rewrite (commit_with true true) by deps.
  react. destruct ai; cbv beta iota;
    rewrite ?delete_empty, insert_empty; reflexivity.
Qed.

(** Playback was stopped by a callback that also cleared the timer. *)
Lemma commit_stopped p c0 c h id nx ob :
  commit p (mkPlayer c false h (Some id) ∅ nx ob (mkRender c0 true))
  = idle c h (Some id) nx.
Proof.
  rewrite (commit_with true true) by deps.
  react. rewrite !delete_empty. reflexivity.
Qed.

(** The frame changed while playing: the observer effect's clean-up stops
    the playback that the previous render had running. *)
Lemma commit_frame_while_playing p c c' h id nx :
  c ≠ c' →
  commit p (mkPlayer c' true h (Some id)
                     {[ id := mkInterval (cadence p) (mkRender c true) ]} nx
                     (Some (mkRender c true)) (mkRender c true))
  = mkPlayer c' false h (Some id) ∅ nx (Some (mkRender c' true))
             (mkRender c' true).
Proof.
  intros Hc.
  rewrite (commit_with false true) by deps.
  react. rewrite delete_singleton_eq. reflexivity.
Qed.

(** The frame was reset at rest. *)
Lemma commit_reset_idle p c c' h ai nx :
  c ≠ c' →
  commit p (mkPlayer c' false h ai ∅ nx (Some (mkRender c false))
                     (mkRender c false))
  = idle c' h ai nx.
Proof.
  intros Hc.
  rewrite (commit_with false true) by deps.
  reflexivity.
Qed.

(** ** One event from each shape

    Each lemma renders the handler's result with any fuel of two or more:
    no event needs more than two commits. *)

Lemma flushed_idle_visible p fuel c h ai nx :
  flush p (S (S fuel)) (handle p (Intersection true) (idle c h ai nx))
  = running p c h nx (S nx).
Proof.
  react. rewrite flush_pending by deps.
  rewrite commit_start. apply flush_settled, settled_running.
Qed.

Lemma flushed_running_visible p fuel c h id nx :
  flush p fuel (handle p (Intersection true) (running p c h id nx))
  = running p c h id nx.
Proof. rewrite flush_settled; [reflexivity|]. apply settled_running. Qed.

Lemma flushed_idle_hidden p fuel c h ai nx :
  flush p (S (S fuel)) (handle p (Intersection false) (idle c h ai nx))
  = idle 0 h ai nx.
Proof.
  react. destruct (decide (c = 0)) as [->|Hc].
  - apply flush_settled, settled_idle.
  - rewrite flush_pending by deps.
    rewrite commit_reset_idle by done. apply flush_settled, settled_idle.
Qed.

Lemma flushed_running_hidden p fuel c h id nx :
  flush p (S (S fuel)) (handle p (Intersection false) (running p c h id nx))
  = idle 0 h (Some id) nx.
Proof.
  react. rewrite delete_singleton_eq.
  rewrite flush_pending by deps.
  rewrite commit_stopped. apply flush_settled, settled_idle.
Qed.

Lemma flushed_running_tick_hold p fuel c h id nx :
  tickBranch p c = Hold →
  flush p (S (S fuel)) (handle p (Tick id) (running p c h id nx))
  = idle c h (Some id) nx.
Proof.
  intros Hb. unfold handle.
  cbv [running intervals]. rewrite lookup_singleton_eq.
  cbv [owner onTick currentFrame]. rewrite Hb. react.
  rewrite delete_singleton_eq.
  rewrite flush_pending by deps.
  rewrite commit_stopped. apply flush_settled, settled_idle.
Qed.

Lemma flushed_running_tick_advance p fuel c h id nx :
  tickBranch p c = Advance →
  flush p (S (S fuel)) (handle p (Tick id) (running p c h id nx))
  = idle (c + 1) h (Some id) nx.
Proof.
  intros Hb. unfold handle.
  cbv [running intervals]. rewrite lookup_singleton_eq.
  cbv [owner onTick currentFrame]. rewrite Hb. react.
  assert (Hne : c ≠ c + 1) by lia.
  rewrite flush_pending by deps.
  rewrite commit_frame_while_playing by done.
  rewrite flush_pending by deps.
  rewrite commit_stopped. apply flush_settled, settled_idle.
Qed.

Lemma flushed_running_tick_stale p fuel c h id nx id' :
  id' ≠ id →
  flush p fuel (handle p (Tick id') (running p c h id nx))
  = running p c h id nx.
Proof.
  intros Hne. unfold handle. cbv [running intervals].
  rewrite lookup_singleton_ne by done.
  apply flush_settled, settled_running.
Qed.

Lemma flushed_idle_tick p fuel c h ai nx id :
  flush p fuel (handle p (Tick id) (idle c h ai nx)) = idle c h ai nx.
Proof.
  unfold handle. cbv [idle intervals]. rewrite lookup_empty.
  apply flush_settled, settled_idle.
Qed.

Lemma flushed_idle_load p fuel c h ai nx :
  flush p fuel (handle p HighResOnLoad (idle c h ai nx)) = idle c true ai nx.
Proof. rewrite flush_settled; [reflexivity|]. apply settled_idle. Qed.

Lemma flushed_running_load p fuel c h id nx :
  flush p fuel (handle p HighResOnLoad (running p c h id nx))
  = running p c true id nx.
Proof.
  rewrite flush_settled; [reflexivity|].
  apply (settled_running p c true id nx).
Qed.

Lemma step_idle_visible p c h ai nx :
  step p (idle c h ai nx) (Intersection true) = running p c h nx (S nx).
Proof. apply (flushed_idle_visible p 48). Qed.

Lemma step_running_visible p c h id nx :
  step p (running p c h id nx) (Intersection true) = running p c h id nx.
Proof. apply flushed_running_visible. Qed.

Lemma step_idle_hidden p c h ai nx :
  step p (idle c h ai nx) (Intersection false) = idle 0 h ai nx.
Proof. apply (flushed_idle_hidden p 48). Qed.

Lemma step_running_hidden p c h id nx :
  step p (running p c h id nx) (Intersection false) = idle 0 h (Some id) nx.
Proof. apply (flushed_running_hidden p 48). Qed.

Lemma step_running_tick_hold p c h id nx :
  tickBranch p c = Hold →
  step p (running p c h id nx) (Tick id) = idle c h (Some id) nx.
Proof. apply (flushed_running_tick_hold p 48). Qed.

Lemma step_running_tick_advance p c h id nx :
  tickBranch p c = Advance →
  step p (running p c h id nx) (Tick id) = idle (c + 1) h (Some id) nx.
Proof. apply (flushed_running_tick_advance p 48). Qed.

Lemma step_running_tick_stale p c h id nx id' :
  id' ≠ id →
  step p (running p c h id nx) (Tick id') = running p c h id nx.
Proof. apply flushed_running_tick_stale. Qed.

Lemma step_idle_tick p c h ai nx id :
  step p (idle c h ai nx) (Tick id) = idle c h ai nx.
Proof. apply flushed_idle_tick. Qed.

Lemma step_idle_load p c h ai nx :
  step p (idle c h ai nx) HighResOnLoad = idle c true ai nx.
Proof. apply flushed_idle_load. Qed.

Lemma step_running_load p c h id nx :
  step p (running p c h id nx) HighResOnLoad = running p c true id nx.
Proof. apply flushed_running_load. Qed.

Lemma tickBranch_cases p c :
  (c + 1 = length (frames p) ∧ tickBranch p c = Hold)
  ∨ (c + 1 ≠ length (frames p) ∧ tickBranch p c = Advance).
Proof.
  unfold tickBranch. destruct (Nat.eqb_spec (c + 1) (length (frames p))); auto.
Qed.

Lemma fires_idle c h ai nx e : fires (idle c h ai nx) e = false.
Proof.
  destruct e; reflexivity.
Qed.

Lemma fires_running p c h id nx e :
  fires (running p c h id nx) e = true ↔ e = Tick id.
Proof.
  destruct e as [b|id'|]; cbv [fires running intervals]; try (split; done).
  rewrite bool_decide_eq_true. destruct (decide (id' = id)) as [->|Hne].
  - rewrite lookup_singleton_eq. split; eauto.
  - rewrite lookup_singleton_ne by done. split.
    + by intros [? ?].
    + intros [= ?]. done.
Qed.

(** ** The invariant along a run *)

Lemma step_Inv p s e : Inv p s → Inv p (step p s e).
Proof.
  intros [c h ai nx|c h id nx]; destruct e as [[|]|id'|].
  - rewrite step_idle_visible. constructor.
  - rewrite step_idle_hidden. constructor.
  - rewrite step_idle_tick. constructor.
  - rewrite step_idle_load. constructor.
  - rewrite step_running_visible. constructor.
  - rewrite step_running_hidden. constructor.
  - destruct (decide (id' = id)) as [->|Hne].
    + destruct (tickBranch_cases p c) as [[_ Hb]|[_ Hb]].
      * rewrite step_running_tick_hold by done. constructor.
      * rewrite step_running_tick_advance by done. constructor.
    + rewrite step_running_tick_stale by done. constructor.
  - rewrite step_running_load. constructor.
Qed.

Lemma run_Inv p s trace : Inv p s → Inv p (run p s trace).
Proof.
  revert s. induction trace as [|e trace IH]; intros s Hs; [done|].
  apply IH, step_Inv, Hs.
Qed.

Lemma reachable_Inv p trace : Inv p (run p (mount p) trace).
Proof. apply run_Inv. rewrite mount_idle. constructor. Qed.

(** ** What one event does to the frame index, the flags and the timers *)

Lemma step_frame_bound p s e :
  Inv p s → currentFrame s < length (frames p) →
  currentFrame (step p s e) < length (frames p).
Proof.
  intros [c h ai nx|c h id nx] Hc; cbn in Hc; destruct e as [[|]|id'|];
    rewrite ?step_idle_visible, ?step_idle_hidden, ?step_idle_tick,
      ?step_idle_load, ?step_running_visible, ?step_running_hidden,
      ?step_running_load; cbn; try lia.
  destruct (decide (id' = id)) as [->|Hne].
  - destruct (tickBranch_cases p c) as [[? Hb]|[? Hb]].
    + rewrite step_running_tick_hold by done. cbn. lia.
    + rewrite step_running_tick_advance by done. cbn. lia.
  - rewrite step_running_tick_stale by done. cbn. lia.
Qed.

Lemma run_frame_bound p s trace :
  Inv p s → currentFrame s < length (frames p) →
  currentFrame (run p s trace) < length (frames p).
Proof.
  revert s. induction trace as [|e trace IH]; intros s Hs Hc; [done|].
  apply IH; auto using step_Inv, step_frame_bound.
Qed.

Lemma step_highResLoaded p s e :
  Inv p s → highResLoaded (step p s e) = highResLoaded s || isLoad e.
Proof.
  intros [c h ai nx|c h id nx]; destruct e as [[|]|id'|];
    rewrite ?step_idle_visible, ?step_idle_hidden, ?step_idle_tick,
      ?step_idle_load, ?step_running_visible, ?step_running_hidden,
      ?step_running_load; cbn; rewrite ?orb_false_r, ?orb_true_r; try done.
  destruct (decide (id' = id)) as [->|Hne].
  - destruct (tickBranch_cases p c) as [[? Hb]|[? Hb]].
    + by rewrite step_running_tick_hold.
    + by rewrite step_running_tick_advance.
  - by rewrite step_running_tick_stale.
Qed.

Lemma run_highResLoaded p s trace :
  Inv p s →
  highResLoaded (run p s trace) = highResLoaded s || existsb isLoad trace.
Proof.
  revert s. induction trace as [|e trace IH]; intros s Hs.
  - cbn. by rewrite orb_false_r.
  - change (run p s (e :: trace)) with (run p (step p s e) trace).
    cbn [existsb]. rewrite IH by auto using step_Inv.
    rewrite step_highResLoaded by done. by rewrite orb_assoc.
Qed.

(** While the element stays in view, the index is the number of ticks
    received, capped at the last frame. *)
Lemma visible_progress p s trace :
  Inv p s → currentFrame s < length (frames p) →
  stays_visible trace = true →
  currentFrame (run p s trace)
  = Nat.min (currentFrame s + ticksReceived p s trace) (length (frames p) - 1).
Proof.
  revert s. induction trace as [|e trace IH]; intros s Hs Hc Hv.
  - cbn. lia.
  - cbn in Hv. apply andb_prop in Hv as [He Hv].
    change (run p s (e :: trace)) with (run p (step p s e) trace).
    cbn [ticksReceived].
    rewrite IH; auto using step_Inv, step_frame_bound.
    destruct Hs as [c h ai nx|c h id nx]; cbn in Hc.
    + rewrite fires_idle.
      destruct e as [[|]|id'|]; try done;
        rewrite ?step_idle_visible, ?step_idle_tick, ?step_idle_load;
        cbn [currentFrame idle running]; lia.
    + destruct e as [[|]|id'|]; try done.
      * rewrite step_running_visible. cbn [currentFrame running fires]. lia.
      * destruct (decide (id' = id)) as [->|Hne].
        -- replace (fires (running p c h id nx) (Tick id)) with true
             by (symmetry; by apply fires_running).
           destruct (tickBranch_cases p c) as [[? Hb]|[? Hb]].
           ++ rewrite step_running_tick_hold by done.
              cbn [currentFrame idle running]. lia.
           ++ rewrite step_running_tick_advance by done.
              cbn [currentFrame idle running]. lia.
        -- rewrite step_running_tick_stale by done.
           replace (fires (running p c h id nx) (Tick id')) with false.
           ++ cbn [currentFrame running]. lia.
           ++ symmetry. apply not_true_is_false.
              rewrite fires_running. congruence.
      * rewrite step_running_load. cbn [currentFrame running fires]. lia.
Qed.

(** A visible event never takes the index back. *)
Lemma visible_step_monotone p s e :
  Inv p s → stays_visible [e] = true →
  currentFrame s ≤ currentFrame (step p s e).
Proof.
  intros [c h ai nx|c h id nx] He; destruct e as [[|]|id'|]; try done;
    rewrite ?step_idle_visible, ?step_idle_tick, ?step_idle_load,
      ?step_running_visible, ?step_running_load; cbn; try lia.
  destruct (decide (id' = id)) as [->|Hne].
  - destruct (tickBranch_cases p c) as [[? Hb]|[? Hb]].
    + rewrite step_running_tick_hold by done. cbn. lia.
    + rewrite step_running_tick_advance by done. cbn. lia.
  - rewrite step_running_tick_stale by done. cbn. lia.
Qed.

(** Whatever fires leaves the player at rest. *)
Lemma fired_tick_rests p s id :
  Inv p s → fires s (Tick id) = true →
  isAnimating (step p s (Tick id)) = false
  ∧ intervals (step p s (Tick id)) = ∅
  ∧ currentFrame (step p s (Tick id))
    = match tickBranch p (currentFrame s) with
      | Hold => currentFrame s
      | Advance => currentFrame s + 1
      end.
Proof.
  intros [c h ai nx|c h id0 nx] Hf.
  - by rewrite fires_idle in Hf.
  - apply fires_running in Hf as [= ->]. cbn [currentFrame running].
    destruct (tickBranch_cases p c) as [[? Hb]|[? Hb]]; rewrite Hb.
    + by rewrite step_running_tick_hold.
    + by rewrite step_running_tick_advance.
Qed.

Lemma visible_starts_timer p s :
  Inv p s →
  isAnimating (step p s (Intersection true)) = true
  ∧ ∃ id, fires (step p s (Intersection true)) (Tick id) = true.
Proof.
  intros [c h ai nx|c h id nx].
  - rewrite step_idle_visible. split; [done|]. exists nx.
    by apply fires_running.
  - rewrite step_running_visible. split; [done|]. exists id.
    by apply fires_running.
Qed.

(** ** The claims about the frame player *)

Definition threeFrames : Props := mkProps ["f0"; "f1"; "f2"] None.

(** C1 (as amended).  For a sequence of N >= 1 frames and any cadence,
    while the element stays in view: the index after k received ticks is
    min(k, N-1), so it is N-1 after N-1 ticks and never beyond; no event
    takes it back; an intersecting report always leaves a timer to fire;
    and the tick received with N-1 or more ticks behind it (the N-th or a
    later one) leaves the index at N-1, [isAnimating] false and no timer
    live. *)
Theorem C1_completion_at_tick_N (p : Props) (trace : list Event) :
  1 ≤ length (frames p) →
  stays_visible trace = true →
  let N := length (frames p) in
  let s := run p (mount p) trace in
  let k := ticksReceived p (mount p) trace in
  currentFrame s = Nat.min k (N - 1)
  ∧ (∀ e, stays_visible [e] = true → currentFrame s ≤ currentFrame (step p s e))
  ∧ (∃ id, fires (step p s (Intersection true)) (Tick id) = true)
  ∧ (∀ id, fires s (Tick id) = true → N - 1 ≤ k →
       currentFrame (step p s (Tick id)) = N - 1
       ∧ isAnimating (step p s (Tick id)) = false
       ∧ intervals (step p s (Tick id)) = ∅).
Proof.
  intros HN Hv N s k.
  assert (Hinv : Inv p s) by apply reachable_Inv.
  assert (Hs : currentFrame s = Nat.min k (N - 1)).
  { unfold s, k.
    apply (visible_progress p (mount p) trace);
      [rewrite mount_idle; constructor | cbn; lia | done]. }
  split; [exact Hs|]. split; [|split].
  - intros e He. by apply visible_step_monotone.
  - by apply visible_starts_timer.
  - intros id Hf Hk.
    destruct (fired_tick_rests p s id Hinv Hf) as (Ha & Hi & Hc).
    split; [|done]. rewrite Hc.
    destruct (tickBranch_cases p (currentFrame s)) as [[? ->]|[? ->]]; lia.
Qed.

Lemma C1_completion_at_tick_N_witness :
  1 ≤ length (frames threeFrames)
  ∧ stays_visible [Intersection true; Tick 0; Intersection true; Tick 1;
                   Intersection true] = true
  ∧ currentFrame (step threeFrames
       (run threeFrames (mount threeFrames)
          [Intersection true; Tick 0; Intersection true; Tick 1;
           Intersection true]) (Tick 2)) = 2.
Proof.
  split; [cbn; lia|]. split; [reflexivity|].
  refine (proj1 (proj2 (proj2 (proj2
    (C1_completion_at_tick_N threeFrames
       [Intersection true; Tick 0; Intersection true; Tick 1;
        Intersection true] _ _))) 2 _ _)).
  - cbn. lia.
  - reflexivity.
  - vm_compute. reflexivity.
  - vm_compute. lia.
Defined.

(** C1, as stated, fails: three frames, in view throughout, two ticks
    received: the index is 2 = N-1 and [isAnimating] is true. *)
Lemma C1_counterexample :
  let trace := [Intersection true; Tick 0; Intersection true; Tick 1;
                Intersection true] in
  stays_visible trace = true
  ∧ ticksReceived threeFrames (mount threeFrames) trace = 2
  ∧ currentFrame (run threeFrames (mount threeFrames) trace) = 2
  ∧ isAnimating (run threeFrames (mount threeFrames) trace) = true.
Proof. vm_compute. auto. Qed.

(** One frame: in view and no tick received yet (N-1 = 0), the player is
    animating. *)
Example single_frame_still_animating :
  let p := mkProps ["f0"] None in
  isAnimating (run p (mount p) [Intersection true]) = true
  ∧ ticksReceived p (mount p) [Intersection true] = 0.
Proof. vm_compute. auto. Qed.

(** Every index of the sequence is reached by a playing player: report,
    tick, report, tick, ..., report. *)
Lemma reach_playing p c :
  c < length (frames p) →
  ∃ trace h id nx, run p (mount p) trace = running p c h id nx.
Proof.
  induction c as [|c IH]; intros Hc.
  - exists [Intersection true], false, 0, 1.
    cbn [run fold_left]. by rewrite mount_idle, step_idle_visible.
  - destruct IH as (trace & h & id & nx & Hrun); [lia|].
    exists (trace ++ [Tick id; Intersection true]), h, nx, (S nx).
    unfold run in *. rewrite fold_left_app, Hrun. cbn [fold_left].
    rewrite step_running_tick_advance.
    + by rewrite step_idle_visible, Nat.add_1_r.
    + unfold tickBranch.
      destruct (Nat.eqb_spec (c + 1) (length (frames p))); [lia|done].
Qed.

(** C3.  When the observer reports that the element no longer intersects,
    in any state a run can reach: no timer is left, [isAnimating] is false
    and the index is 0.  The states reached include, for every index of the
    sequence, one that is playing at that index with its timer live, and
    the report resets that one too. *)
Theorem C3_visibility_off_resets (p : Props) (trace : list Event) :
  let s := step p (run p (mount p) trace) (Intersection false) in
  (currentFrame s = 0 ∧ isAnimating s = false ∧ intervals s = ∅)
  ∧ ∀ c, c < length (frames p) →
      ∃ playing,
        let t := run p (mount p) playing in
        currentFrame t = c ∧ isAnimating t = true ∧ size (intervals t) = 1
        ∧ currentFrame (step p t (Intersection false)) = 0
        ∧ isAnimating (step p t (Intersection false)) = false
        ∧ intervals (step p t (Intersection false)) = ∅.
Proof.
  cbn zeta. split.
  - destruct (reachable_Inv p trace) as [c h ai nx|c h id nx].
    + by rewrite step_idle_hidden.
    + by rewrite step_running_hidden.
  - intros c Hc.
    destruct (reach_playing p c Hc) as (playing & h & id & nx & Hrun).
    exists playing. rewrite Hrun, step_running_hidden.
    repeat split. apply map_size_singleton.
Qed.

(** Three frames, playing at index 2 with one timer live: the report takes
    the index to 0, stops the animation and leaves no timer. *)
Lemma C3_visibility_off_resets_witness :
  let t := run threeFrames (mount threeFrames)
             [Intersection true; Tick 0; Intersection true; Tick 1;
              Intersection true] in
  (currentFrame t = 2 ∧ isAnimating t = true ∧ size (intervals t) = 1)
  ∧ (currentFrame (step threeFrames t (Intersection false)) = 0
     ∧ isAnimating (step threeFrames t (Intersection false)) = false
     ∧ intervals (step threeFrames t (Intersection false)) = ∅).
Proof.
  split; [by vm_compute|].
  exact (proj1 (C3_visibility_off_resets threeFrames
    [Intersection true; Tick 0; Intersection true; Tick 1;
     Intersection true])).
Defined.

(** C5 (as amended).  Nothing is validated: for every frame sequence (the
    empty one too) and every [msBetweenFrame] (zero and negative too) the
    mounted player, once in view, is animating on a timer whose delay is
    the [msBetweenFrame] passed, 15 when the prop is omitted. *)
Theorem C5_cadence_passed_through (p : Props) :
  let s := step p (mount p) (Intersection true) in
  isAnimating s = true
  ∧ intervals s
    = {[ 0 := mkInterval (match msBetweenFrame p with
                          | Some ms => ms
                          | None => 15%Z
                          end) (mkRender 0 true) ]}.
Proof.
  cbn zeta. rewrite mount_idle, step_idle_visible. split; [done|].
  cbv [running intervals cadence]. by destruct (msBetweenFrame p).
Qed.

(** C5, as stated, fails: no frames and a cadence of 0 are accepted; the
    timer runs with delay 0 and the first tick takes the index to 1, past
    the empty sequence. *)
Lemma C5_counterexample :
  let p := mkProps [] (Some 0%Z) in
  let s := step p (mount p) (Intersection true) in
  isAnimating s = true
  ∧ delay <$> intervals s !! 0 = Some 0%Z
  ∧ currentFrame (step p s (Tick 0)) = 1
  ∧ length (frames p) = 0.
Proof. vm_compute. auto. Qed.

(** C6 (as amended).  The flag does not depend on the frame index and is
    never set back: after any run it is true exactly when some load event
    has occurred, whatever frames were shown since. *)
Theorem C6_highResLoaded_latches (p : Props) (trace : list Event) :
  highResLoaded (run p (mount p) trace) = existsb isLoad trace.
Proof.
  rewrite run_highResLoaded; [done|]. rewrite mount_idle. constructor.
Qed.

(** C6, as stated, fails: frame 0 loads, a tick shows frame 1, and the
    flag is still true before any load of frame 1. *)
Lemma C6_counterexample :
  let s := run threeFrames (mount threeFrames)
             [Intersection true; HighResOnLoad; Tick 0] in
  currentFrame s = 1 ∧ highResLoaded s = true.
Proof. vm_compute. auto. Qed.

(** C7.  For a sequence of one frame or more the index stays below its
    length after every event; with exactly one frame the updater is in its
    holding branch in every reachable state, so the index stays 0. *)
Theorem C7_index_in_bounds (p : Props) (trace : list Event) :
  1 ≤ length (frames p) →
  currentFrame (run p (mount p) trace) < length (frames p)
  ∧ (length (frames p) = 1 →
       tickBranch p (currentFrame (run p (mount p) trace)) = Hold
       ∧ currentFrame (run p (mount p) trace) = 0).
Proof.
  intros HN.
  assert (Hb : currentFrame (run p (mount p) trace) < length (frames p)).
  { apply run_frame_bound; [rewrite mount_idle; constructor | cbn; lia]. }
  split; [done|]. intros H1. rewrite H1 in Hb.
  assert (H0 : currentFrame (run p (mount p) trace) = 0) by lia.
  split; [|done]. rewrite H0. unfold tickBranch. by rewrite H1.
Qed.

Lemma C7_index_in_bounds_witness :
  1 ≤ length (frames threeFrames)
  ∧ currentFrame (run threeFrames (mount threeFrames)
       [Intersection true; Tick 0; Intersection true; Tick 1;
        Intersection true; Tick 2; Tick 2]) < 3.
Proof.
  split; [cbn; lia|].
  refine (proj1 (C7_index_in_bounds threeFrames
    [Intersection true; Tick 0; Intersection true; Tick 1;
     Intersection true; Tick 2; Tick 2] _)).
  cbn. lia.
Defined.

(** ** Further properties of the frame player *)

(** No report from the observer. *)
Definition no_reports (trace : list Event) : bool :=
  forallb (fun e => match e with Intersection _ => false | _ => true end)
          trace.

Lemma idle_without_reports p c h ai nx trace :
  no_reports trace = true →
  ticksReceived p (idle c h ai nx) trace = 0
  ∧ ∃ h', run p (idle c h ai nx) trace = idle c h' ai nx.
Proof.
  revert h. induction trace as [|e trace IH]; intros h Hn.
  - split; [done|]. by exists h.
  - cbn in Hn. apply andb_prop in Hn as [He Hn].
    change (run p (idle c h ai nx) (e :: trace))
      with (run p (step p (idle c h ai nx) e) trace).
    cbn [ticksReceived]. rewrite fires_idle.
    destruct e as [b|id|]; [done| |].
    + rewrite step_idle_tick. by apply IH.
    + rewrite step_idle_load. by apply IH.
Qed.

(** X1.  The timer of a playing player and no other: in every reachable state
    the host holds one interval when [isAnimating] is true and none when it
    is false; a live interval is the one [animationInterval] names, has the
    cadence as its delay and was started by the render now showing. *)
Theorem X_one_timer_while_animating (p : Props) (trace : list Event) :
  let s := run p (mount p) trace in
  size (intervals s) = (if isAnimating s then 1 else 0)
  ∧ ∀ id iv, intervals s !! id = Some iv →
      isAnimating s = true ∧ animationInterval s = Some id
      ∧ delay iv = cadence p ∧ owner iv = snapshot s.
Proof.
  cbn zeta. destruct (reachable_Inv p trace) as [c h ai nx|c h id nx].
  - cbv [idle intervals isAnimating]. split; [apply map_size_empty|].
    intros id iv Hl. by rewrite lookup_empty in Hl.
  - cbv [running intervals isAnimating animationInterval snapshot currentFrame].
    split; [apply map_size_singleton|].
    intros id' iv Hl. apply lookup_singleton_Some in Hl as [-> <-]. done.
Qed.

(** X2.  Once a tick has been received the player is at rest: until the observer
    reports again no further tick is received and the frame shown stays,
    whatever timers are named and whatever loads complete. *)
Theorem X_one_frame_per_report (p : Props) (trace rest : list Event) (id : nat) :
  let s := run p (mount p) trace in
  fires s (Tick id) = true →
  no_reports rest = true →
  ticksReceived p (step p s (Tick id)) rest = 0
  ∧ currentFrame (run p (step p s (Tick id)) rest)
    = currentFrame (step p s (Tick id))
  ∧ isAnimating (run p (step p s (Tick id)) rest) = false.
Proof.
  cbn zeta. intros Hf Hn.
  destruct (reachable_Inv p trace) as [c h ai nx|c h id0 nx].
  - by rewrite fires_idle in Hf.
  - apply fires_running in Hf as [= ->].
    destruct (tickBranch_cases p c) as [[? Hb]|[? Hb]].
    + rewrite step_running_tick_hold by done.
      destruct (idle_without_reports p c h (Some id0) nx rest Hn)
        as [Ht [h' ->]]. done.
    + rewrite step_running_tick_advance by done.
      destruct (idle_without_reports p (c + 1) h (Some id0) nx rest Hn)
        as [Ht [h' ->]]. done.
Qed.

Lemma X_one_frame_per_report_witness :
  fires (run threeFrames (mount threeFrames) [Intersection true]) (Tick 0) = true
  ∧ no_reports [Tick 0; Tick 1; HighResOnLoad; Tick 0] = true
  ∧ currentFrame
      (run threeFrames
         (step threeFrames
            (run threeFrames (mount threeFrames) [Intersection true]) (Tick 0))
         [Tick 0; Tick 1; HighResOnLoad; Tick 0]) = 1.
Proof.
  split; [reflexivity|]. split; [reflexivity|].
  refine (eq_trans (proj1 (proj2
    (X_one_frame_per_report threeFrames [Intersection true]
       [Tick 0; Tick 1; HighResOnLoad; Tick 0] 0 _ _))) _);
    reflexivity.
Defined.

Ltac settle :=
  repeat split;
  first [ reflexivity | apply settled_idle | apply settled_running ].

(** X3.  Rendering settles: after any event in any reachable state two commits
    are enough, more fuel changes nothing, and no effect is left pending;
    the observer's callback then closes over the state as it stands. *)
Theorem X_two_commits_suffice (p : Props) (trace : list Event) (e : Event)
    (fuel : nat) :
  let s := run p (mount p) trace in
  flush p (2 + fuel) (handle p e s) = flush p 2 (handle p e s)
  ∧ settled (flush p 2 (handle p e s)) = true
  ∧ observer (flush p 2 (handle p e s))
    = Some (snapshot (flush p 2 (handle p e s))).
Proof.
  cbn zeta. change (2 + fuel) with (S (S fuel)).
  destruct (reachable_Inv p trace) as [c h ai nx|c h id nx];
    destruct e as [[|]|id'|].
  - rewrite !flushed_idle_visible by done; settle.
  - rewrite !flushed_idle_hidden by done; settle.
  - rewrite !flushed_idle_tick by done; settle.
  - rewrite !flushed_idle_load by done; settle.
  - rewrite !flushed_running_visible by done; settle.
  - rewrite !flushed_running_hidden by done; settle.
  - destruct (decide (id' = id)) as [->|Hne].
    + destruct (tickBranch_cases p c) as [[_ Hb]|[_ Hb]].
      * rewrite !flushed_running_tick_hold by done; settle.
      * rewrite !flushed_running_tick_advance by done; settle.
    + rewrite !flushed_running_tick_stale by done; settle.
  - rewrite !flushed_running_load by done; settle.
Qed.

(** X4.  A second intersecting report changes nothing: no second timer is
    started and the one running keeps its id. *)
Theorem X_intersecting_report_idempotent (p : Props) (trace : list Event) :
  let s := step p (run p (mount p) trace) (Intersection true) in
  step p s (Intersection true) = s.
Proof.
  cbn zeta. destruct (reachable_Inv p trace) as [c h ai nx|c h id nx].
  - by rewrite step_idle_visible, step_running_visible.
  - by rewrite !step_running_visible.
Qed.

(** X5.  Leaving the viewport and coming back replays from the first frame: the
    index is 0, the player is animating on one fresh timer with the
    cadence, and the load flag is what it was. *)
Theorem X_replay_from_first_frame (p : Props) (trace : list Event) :
  let s0 := run p (mount p) trace in
  let s := run p s0 [Intersection false; Intersection true] in
  currentFrame s = 0
  ∧ isAnimating s = true
  ∧ highResLoaded s = highResLoaded s0
  ∧ intervals s
    = {[ nextInterval s0 := mkInterval (cadence p) (mkRender 0 true) ]}.
Proof.
  cbn zeta. pose proof (reachable_Inv p trace) as Hs.
  change (run p (run p (mount p) trace) [Intersection false; Intersection true])
    with (step p (step p (run p (mount p) trace) (Intersection false))
            (Intersection true)).
  destruct Hs as [c h ai nx|c h id nx].
  - by rewrite step_idle_hidden, step_idle_visible.
  - by rewrite step_running_hidden, step_idle_visible.
Qed.

(** X6.  Unmounting releases what the player holds, in every reachable state: no
    interval is left live and the observer is disconnected. *)
Theorem X_unmount_releases (p : Props) (trace : list Event) :
  let s := unmount (run p (mount p) trace) in
  intervals s = ∅ ∧ observer s = None.
Proof.
  cbn zeta. destruct (reachable_Inv p trace) as [c h ai nx|c h id nx].
  - split; [|done]. unfold unmount. react.
    destruct ai; cbv beta iota; [|done]. apply delete_empty.
  - split; [|done]. unfold unmount. react.
    by rewrite delete_singleton_eq, delete_empty.
Qed.

(** X7.  With no frames the updater never holds: while the element is in view
    the index is the number of ticks received, with no bound, and the image
    sources end in "undefined" from the start. *)
Theorem X_empty_sequence_runs_away (ms : option Z) (trace : list Event) :
  let p := mkProps [] ms in
  stays_visible trace = true →
  currentFrame (run p (mount p) trace) = ticksReceived p (mount p) trace
  ∧ lowResSrc p (run p (mount p) trace)
    = "/tape-falling-frames-placeholder/undefined"
  ∧ highResSrc false p (run p (mount p) trace)
    = "/tape-falling-frames/undefined".
Proof.
  cbn zeta. intros Hv. split; [|done].
  rewrite mount_idle.
  enough (H : ∀ s, Inv (mkProps [] ms) s →
            currentFrame (run (mkProps [] ms) s trace)
            = currentFrame s + ticksReceived (mkProps [] ms) s trace)
    by (rewrite H; [done | constructor]).
  induction trace as [|e trace IH]; intros s Hs.
  - cbn. lia.
  - cbn in Hv. apply andb_prop in Hv as [He Hv].
    change (run (mkProps [] ms) s (e :: trace))
      with (run (mkProps [] ms) (step (mkProps [] ms) s e) trace).
    cbn [ticksReceived]. rewrite IH by auto using step_Inv.
    destruct Hs as [c h ai nx|c h id nx].
    + rewrite fires_idle.
      destruct e as [[|]|id'|]; try done;
        rewrite ?step_idle_visible, ?step_idle_tick, ?step_idle_load;
        cbn [currentFrame idle running]; lia.
    + destruct e as [[|]|id'|]; try done.
      * rewrite step_running_visible. cbn [currentFrame running fires]. lia.
      * destruct (decide (id' = id)) as [->|Hne].
        -- replace (fires (running (mkProps [] ms) c h id nx) (Tick id))
             with true by (symmetry; by apply fires_running).
           rewrite step_running_tick_advance.
           ++ cbn [currentFrame idle running]. lia.
           ++ unfold tickBranch. cbn. by rewrite Nat.add_1_r.
        -- rewrite step_running_tick_stale by done.
           replace (fires (running (mkProps [] ms) c h id nx) (Tick id'))
             with false.
           ++ cbn [currentFrame running]. lia.
           ++ symmetry. apply not_true_is_false.
              rewrite fires_running. congruence.
      * rewrite step_running_load. cbn [currentFrame running fires]. lia.
Qed.

Lemma X_empty_sequence_runs_away_witness :
  stays_visible [Intersection true; Tick 0; Intersection true; Tick 1;
                 Intersection true; Tick 2] = true
  ∧ currentFrame (run (mkProps [] None) (mount (mkProps [] None))
       [Intersection true; Tick 0; Intersection true; Tick 1;
        Intersection true; Tick 2]) = 3.
Proof.
  split; [reflexivity|].
  refine (eq_trans (proj1
    (X_empty_sequence_runs_away None
       [Intersection true; Tick 0; Intersection true; Tick 1;
        Intersection true; Tick 2] _)) _); reflexivity.
Defined.

(** X8.  With one frame or more both image sources always name a frame of the
    sequence, the one at the current index; "undefined" is never
    requested. *)
Theorem X_sources_name_a_frame (p : Props) (trace : list Event) :
  1 ≤ length (frames p) →
  let s := run p (mount p) trace in
  ∃ f, frames p !! currentFrame s = Some f
       ∧ lowResSrc p s = "/tape-falling-frames-placeholder/" +:+ f
       ∧ highResSrc true p s = "/tape-falling-frames-min/" +:+ f
       ∧ highResSrc false p s = "/tape-falling-frames/" +:+ f.
Proof.
  intros HN s.
  assert (Hb : currentFrame s < length (frames p)).
  { apply run_frame_bound; [rewrite mount_idle; constructor | cbn; lia]. }
  destruct (lookup_lt_is_Some_2 _ _ Hb) as [f Hf]. exists f.
  unfold lowResSrc, highResSrc, frameName. rewrite Hf. done.
Qed.

Lemma X_sources_name_a_frame_witness :
  1 ≤ length (frames threeFrames)
  ∧ ∃ f, frames threeFrames
           !! currentFrame (run threeFrames (mount threeFrames)
                              [Intersection true; Tick 0]) = Some f
       ∧ lowResSrc threeFrames
           (run threeFrames (mount threeFrames) [Intersection true; Tick 0])
         = "/tape-falling-frames-placeholder/" +:+ f
       ∧ highResSrc true threeFrames
           (run threeFrames (mount threeFrames) [Intersection true; Tick 0])
         = "/tape-falling-frames-min/" +:+ f
       ∧ highResSrc false threeFrames
           (run threeFrames (mount threeFrames) [Intersection true; Tick 0])
         = "/tape-falling-frames/" +:+ f.
Proof.
  split; [cbn; lia|].
  apply (X_sources_name_a_frame threeFrames [Intersection true; Tick 0]).
  cbn. lia.
Defined.

(** X9.  The zoom factor of the two images, lines 12-21: it is NaN exactly when
    one of the two ratios is, and otherwise lies between 1.2 and the cap (3,
    or 2.4 on a mobile device), whatever the window measures. *)
Theorem X_scale_bounded (isMobile : bool) (windowWidth windowHeight : float) :
  let divisor := (if isMobile then 350 else 300)%float in
  let cap := (if isMobile then 2.4 else 3)%float in
  let r := scale isMobile windowWidth windowHeight in
  is_nan r = is_nan (windowWidth / divisor)%float
             || is_nan (windowHeight / divisor)%float
  ∧ (is_nan r = false → (1.2 <=? r)%float = true ∧ (r <=? cap)%float = true).
Proof.
  cbn zeta. unfold scale.
  set (a := (windowWidth / (if isMobile then 350 else 300))%float).
  set (b := (windowHeight / (if isMobile then 350 else 300))%float).
  set (cap := (if isMobile then 2.4 else 3)%float).
  assert (Hcap : is_nan cap = false ∧ JS.is_neg_zero cap = false
                 ∧ (cap <? infinity)%float = true ∧ (1.2 <=? cap)%float = true
                 ∧ (cap <=? cap)%float = true)
    by (unfold cap; destruct isMobile; repeat split; reflexivity).
  destruct Hcap as (Hc1 & Hc2 & Hc3 & Hc4 & Hc5).
  unfold JS.Math_max. cbn [existsb].
  change (is_nan 1.2%float) with false. rewrite !Bool.orb_false_r.
  destruct (is_nan a || is_nan b) eqn:Hab.
  - unfold JS.Math_min. cbn [existsb]. change (is_nan nan) with true.
    cbn [orb]. change (is_nan nan) with true. by split.
  - apply orb_false_elim in Hab as [Ha Hb].
    cbn [fold_left].
    set (h2 := JS.max_step (JS.max_step neg_infinity a) b).
    assert (Hh2 : is_nan h2 = false)
      by (apply max_step_not_nan; [apply max_step_not_nan|]; done).
    assert (HM : is_nan (JS.max_step h2 1.2%float) = false
                 ∧ (1.2 <=? JS.max_step h2 1.2)%float = true).
    { rewrite max_step_nonzero by reflexivity.
      destruct (h2 <? 1.2)%float eqn:Hlt; [by split|].
      split; [done|]. by apply ltb_false_leb. }
    destruct HM as [HM1 HM2].
    set (M := JS.max_step h2 1.2%float) in *.
    unfold JS.Math_min. cbn [existsb]. rewrite HM1, Hc1. cbn [orb fold_left].
    rewrite (min_step_nonzero _ cap) by done. rewrite min_step_infinity.
    destruct (M <? infinity)%float eqn:HMi.
    + destruct (cap <? M)%float eqn:Hlt; [by split|].
      split; [done|]. intros _. split; [done|]. by apply ltb_false_leb.
    + rewrite Hc3. by split.
Qed.

(** X10.  The two image layers, lines 102-103 and 120-122: until the first load
    event the placeholder is opaque (z-index 3) and the high-resolution
    image transparent; from the first load event on it is the other way
    round, for good; at every moment exactly one of the two is opaque and
    the high-resolution image is never below the placeholder. *)
Theorem X_layers_swap_once (p : Props) (trace : list Event) :
  let s := run p (mount p) trace in
  lowResLayer s
  = (if existsb isLoad trace then mkLayer 0 4 else mkLayer 1 3)
  ∧ highResLayer s
    = (if existsb isLoad trace then mkLayer 1 4 else mkLayer 0 4)
  ∧ (opacity (lowResLayer s) + opacity (highResLayer s) = 1)%Z
  ∧ (zIndex (lowResLayer s) ≤ zIndex (highResLayer s))%Z.
Proof.
  cbn zeta. unfold lowResLayer, highResLayer.
  rewrite run_highResLoaded by (rewrite mount_idle; constructor).
  cbn [highResLoaded mount observerEffect intervalEffect setObserver
       r_isAnimating orb].
  by destruct (existsb isLoad trace).
Qed.

End ImageAnimationProofs.

(** * The kinematics integrator *)

Module ThreeSceneProofs.

Import ThreeScene.

Local Open Scope float_scope.

(** A freshly loaded object as three.js creates it, and a parent scene with
    nothing below it yet. *)
Definition freshObject : Object3D :=
  mkObject3D (mkVector3 0 0 0) (mkVector3 0 0 0) (mkVector3 1 1 1).

Definition emptyScene : Scene := mkScene [] [].

Definition isSetupEffect (e : Event) : bool :=
  match e with SetupEffect _ _ => true | _ => false end.

Definition cinematicLights : list Light :=
  [keyLight; fillLight; rimLight; ambientLight; spotlight].

(** The value of [position.y] and of [rotation.x] behind [modelRef], 0
    where there is no object. *)
Definition positionY (w : World) : float :=
  match modelRef w with Some o => y (position o) | None => 0 end.

Definition rotationX (w : World) : float :=
  match modelRef w with Some o => x (rotation o) | None => 0 end.

(** Frame [k] of a run of frames changes both [position.y] and
    [rotation.x]. *)
Definition frameMoves (isMobile : bool) (w : World) (k : nat) : bool :=
  let before := run isMobile w (repeat (Frame []) k) in
  let after := step isMobile before (Frame []) in
  negb (positionY after =? positionY before)
  && negb (rotationX after =? rotationX before).

Lemma step_modelRef_is_Some isMobile w e :
  is_Some (modelRef w) → is_Some (modelRef (step isMobile w e)).
Proof.
  intros [o Ho]. destruct w as [[su ls d v rx ry rz] m sc]. cbn in Ho. subst m.
  destruct e as [win pick| win | sy | ints | ints]; cbn.
  - destruct su; cbn; [eauto|].
    destruct (initRotations !! _); cbn; eauto.
  - eauto.
  - unfold handleScroll. destruct (_ =? _); cbn; eauto.
  - destruct ints; cbn; eauto.
  - eauto.
Qed.

Lemma step_isSetup isMobile w e :
  isSetup (state (step isMobile w e)) = isSetup (state w) || passes w e.
Proof.
  destruct w as [[su ls d v rx ry rz] m sc].
  destruct e as [win pick| win | sy | ints | ints]; cbn.
  - destruct m, su; cbn; try done;
      by destruct (initRotations !! _).
  - by rewrite orb_false_r.
  - rewrite orb_false_r. unfold handleScroll. by destruct (_ =? _).
  - rewrite orb_false_r. by destruct ints.
  - rewrite orb_false_r. by destruct m.
Qed.

Lemma step_lights isMobile w e :
  lights (parent (step isMobile w e))
  = lights (parent w) ++ (if passes w e then cinematicLights else []).
Proof.
  destruct w as [[su ls d v rx ry rz] m sc].
  destruct e as [win pick| win | sy | ints | ints]; cbn;
    rewrite ?app_nil_r; try done.
  - destruct m, su; cbn; rewrite ?app_nil_r, <- ?app_assoc; done.
  - unfold handleScroll. by destruct (_ =? _).
  - by destruct ints.
  - by destruct m.
Qed.

Lemma run_modelRef_is_Some isMobile w trace :
  is_Some (modelRef w) → is_Some (modelRef (run isMobile w trace)).
Proof.
  revert w. induction trace as [|e trace IH]; intros w Hm; [done|].
  apply IH, step_modelRef_is_Some, Hm.
Qed.

Lemma step_parent isMobile w e :
  parent (step isMobile w e)
  = (if passes w e
     then mkScene (map traverseSmooth (objects (parent w)))
                  (lights (parent w) ++ cinematicLights)
     else parent w).
Proof.
  destruct w as [[su ls d v rx ry rz] m sc].
  destruct e as [win pick| win | sy | ints | ints]; cbn; try done.
  - destruct m, su; cbn; try done.
    unfold setupCinematicLighting, applySmoothShading, add. cbn.
    by rewrite <- !app_assoc.
  - unfold handleScroll. by destruct (_ =? _).
  - by destruct ints.
  - by destruct m.
Qed.

Lemma setup_latch isMobile w trace :
  is_Some (modelRef w) →
  setupPasses isMobile w trace
  = (if isSetup (state w) then 0 else if existsb isSetupEffect trace then 1 else 0)%nat
  ∧ isSetup (state (run isMobile w trace))
    = isSetup (state w) || existsb isSetupEffect trace
  ∧ lights (parent (run isMobile w trace))
    = lights (parent w)
      ++ (if isSetup (state w) then []
          else if existsb isSetupEffect trace then cinematicLights else [])
  ∧ parent (run isMobile w trace)
    = (if isSetup (state w) then parent w
       else if existsb isSetupEffect trace
            then mkScene (map traverseSmooth (objects (parent w)))
                         (lights (parent w) ++ cinematicLights)
            else parent w).
Proof.
  revert w. induction trace as [|e trace IH]; intros w Hm.
  - cbn. rewrite orb_false_r.
    destruct (isSetup (state w)); by rewrite app_nil_r.
  - change (run isMobile w (e :: trace))
      with (run isMobile (step isMobile w e) trace).
    cbn [setupPasses existsb].
    destruct (IH (step isMobile w e)) as (IH1 & IH2 & IH3 & IH4);
      [by apply step_modelRef_is_Some|].
    rewrite IH1, IH2, IH3, IH4, step_isSetup, step_lights, step_parent.
    assert (Hp : passes w e = negb (isSetup (state w)) && isSetupEffect e).
    { destruct Hm as [o Ho]. destruct e; cbn; rewrite ?andb_false_r; try done.
      rewrite Ho. by rewrite andb_true_r. }
    rewrite Hp.
    destruct (isSetup (state w)), (isSetupEffect e),
      (existsb isSetupEffect trace); cbn; rewrite ?app_nil_r; done.
Qed.

(** ** The claims about the integrator *)

(** C2.  With an object behind [modelRef], one frame does exactly this:
    [position.y] becomes (y + v * d) * 0.92; [rotation.x] takes v * 0.5 * d
    and then, with the other two axes, its rotational velocity times 0.97
    times 0.1; the positional velocity is multiplied by 0.91 and each
    rotational velocity by 0.97.  Nothing else changes, and what the
    raycast returned plays no part. *)
Theorem C2_frame_integration (isMobile : bool) (st : State) (obj : Object3D)
    (sc : Scene) (intersects : list Intersection) :
  let v := positionalVelocity st in
  let d := direction st in
  step isMobile (mkWorld st (Some obj) sc) (Frame intersects)
  = mkWorld
      (mkState (isSetup st) (lastScrollY st) d (v * 0.91)
         (rotationalXVelocity st * 0.97)
         (rotationalYVelocity st * 0.97)
         (rotationalZVelocity st * 0.97))
      (Some (mkObject3D
         (mkVector3 (x (position obj))
                    ((y (position obj) + v * d) * 0.92)
                    (z (position obj)))
         (mkVector3
            (x (rotation obj) + v * 0.5 * d + rotationalXVelocity st * 0.97 * 0.1)
            (y (rotation obj) + rotationalYVelocity st * 0.97 * 0.1)
            (z (rotation obj) + rotationalZVelocity st * 0.97 * 0.1))
         (scale obj)))
      sc.
Proof. reflexivity. Qed.

(** C4 (as amended).  A scroll event at an offset equal to the recorded one
    sets the direction to 0 and leaves the positional velocity; at any other
    offset the direction becomes -1 when the offset grew and +1 otherwise,
    and the velocity |delta| * 0.005; the offset is recorded either way and
    nothing else changes.  For 100 -> 80 the direction is +1 and the
    velocity 0.1. *)
Theorem C4_scroll_handler (isMobile : bool) (w : World) (scrollY : float) :
  let st := state w in
  let w' := step isMobile w (Scroll scrollY) in
  w' = mkWorld
         (mkState (isSetup st) scrollY
            (if scrollY =? lastScrollY st then 0
             else if lastScrollY st <? scrollY then -1 else 1)
            (if scrollY =? lastScrollY st then positionalVelocity st
             else abs (scrollY - lastScrollY st) * 0.005)
            (rotationalXVelocity st) (rotationalYVelocity st)
            (rotationalZVelocity st))
         (modelRef w) (parent w)
  ∧ (let at100 := setLastScrollY (λ _, 100) w in
     direction (state (step isMobile at100 (Scroll 80))) = 1
     ∧ positionalVelocity (state (step isMobile at100 (Scroll 80))) = 0.1).
Proof.
  destruct w as [st m sc]. cbn zeta. split; [|split; reflexivity].
  cbn [step state]. unfold handleScroll.
  destruct (scrollY =? lastScrollY st); reflexivity.
Qed.

(** C4, as stated, fails: after the offset went from 100 to 80 the
    direction is +1, which is not -1. *)
Lemma C4_counterexample :
  let at100 := setLastScrollY (λ _, 100) (mount (Some freshObject) emptyScene) in
  direction (state (step false at100 (Scroll 80))) = 1
  ∧ (1 =? -1) = false.
Proof. split; reflexivity. Qed.

(** C8.  For a mounted model, along any events at all: the set-up pass is
    made once if the set-up effect ever runs and never otherwise, however
    many frames, scrolls, pointer events, resizes and further effect runs
    there are; [isSetup] is true from that pass on and no event sets it
    back; the scene has been shaded and lit by that one pass and by nothing
    else.  A run of the set-up effect is gated as a whole: with the latch
    open it scales the object, gives it the preset drawn, shades the
    scene, adds the five lights and closes the latch; with the latch
    closed it changes nothing, scale, rotation and shading included. *)
Theorem C8_setup_once (isMobile : bool) (obj : Object3D) (sc : Scene)
    (trace : list Event) :
  let w0 := mount (Some obj) sc in
  let w := run isMobile w0 trace in
  setupPasses isMobile w0 trace
  = (if existsb isSetupEffect trace then 1 else 0)%nat
  ∧ isSetup (state w) = existsb isSetupEffect trace
  ∧ lights (parent w)
    = lights sc ++ (if existsb isSetupEffect trace then cinematicLights else [])
  ∧ (∀ e, isSetup (state w) = true →
          isSetup (state (step isMobile w e)) = true)
  ∧ parent w
    = (if existsb isSetupEffect trace
       then mkScene (map traverseSmooth (objects sc))
                    (lights sc ++ cinematicLights)
       else sc)
  ∧ ∀ win pick,
      ∃ o r,
        modelRef w = Some o
        ∧ initRotations !! (pick mod length initRotations)%nat = Some r
        ∧ step isMobile w (SetupEffect win pick)
          = (if isSetup (state w) then w
             else
               let f := scaleFactor isMobile win in
               let st := state w in
               mkWorld
                 (mkState true (lastScrollY st) (direction st)
                    (positionalVelocity st) (rotationalXVelocity st)
                    (rotationalYVelocity st) (rotationalZVelocity st))
                 (Some (mkObject3D (position o) r (mkVector3 f f f)))
                 (mkScene (map traverseSmooth (objects (parent w)))
                          (lights (parent w) ++ cinematicLights))).
Proof.
  cbn zeta.
  destruct (setup_latch isMobile (mount (Some obj) sc) trace)
    as (H1 & H2 & H3 & H4); [by eexists|].
  split; [exact H1|]. split; [exact H2|]. split; [exact H3|].
  split; [intros e He; by rewrite step_isSetup, He|].
  split; [exact H4|].
  intros win pick.
  assert (Hm : is_Some (modelRef (run isMobile (mount (Some obj) sc) trace)))
    by (apply run_modelRef_is_Some; by eexists).
  destruct Hm as [o Ho].
  assert (Hlt : (pick mod length initRotations < length initRotations)%nat)
    by (apply Nat.mod_upper_bound; cbn; lia).
  destruct (lookup_lt_is_Some_2 _ _ Hlt) as [r Hr].
  exists o, r. split; [exact Ho|]. split; [exact Hr|].
  revert Ho. generalize (run isMobile (mount (Some obj) sc) trace).
  intros [[su ls d v rx ry rz] m sc'] Ho. cbn in Ho. subst m.
  destruct su; [reflexivity|].
  unfold step, setupEffect, adjustModelRotation.
  remember (pick mod length initRotations)%nat as k eqn:Hk. clear Hk.
  cbn. rewrite Hr. destruct r.
  unfold setupCinematicLighting, applySmoothShading, add, setIsSetup,
    onParent, onModel, adjustModelScale. cbn.
  by rewrite <- !app_assoc.
Qed.

(** A model set up at 1920 x 1080 with preset 2, one frame later: a second
    run of the set-up effect, at 300 x 300 and drawing preset 5, leaves
    everything as it is; the scale is still 0.8 and the rotation still the
    one the frame left. *)
Lemma C8_setup_once_witness :
  let w := run false (mount (Some freshObject) emptyScene)
             [SetupEffect (mkWindow 1920 1080) 2; Frame []] in
  (isSetup (state w) = true
   ∧ scale <$> modelRef w = Some (mkVector3 0.8 0.8 0.8)
   ∧ (scaleFactor false (mkWindow 300 300) =? 0.8) = false)
  ∧ step false w (SetupEffect (mkWindow 300 300) 5) = w.
Proof.
  split; [by vm_compute|].
  destruct (proj2 (proj2 (proj2 (proj2 (proj2
    (C8_setup_once false freshObject emptyScene
       [SetupEffect (mkWindow 1920 1080) 2; Frame []])))))
    (mkWindow 300 300) 5%nat) as (o & r & _ & _ & Hstep).
  exact Hstep.
Defined.

(** C9.  A pointer event that reports an intersection adds half of each
    component of the first face normal to the rotational velocity of that
    axis, on top of what was there, and changes nothing else.  From rest,
    the normal (0, 1, 0) gives a y velocity of 0.5, which one frame takes to
    0.5 * 0.97. *)
Theorem C9_impulse_accumulates (isMobile : bool) (w : World)
    (first : Intersection) (others : list Intersection)
    (obj : Object3D) (sc : Scene) (pt : Vector3) (dist : float)
    (intersects : list Intersection) :
  let st := state w in
  let n := normal (face first) in
  step isMobile w (Pointer (first :: others))
  = mkWorld
      (mkState (isSetup st) (lastScrollY st) (direction st)
         (positionalVelocity st)
         (rotationalXVelocity st + x n * 0.5)
         (rotationalYVelocity st + y n * 0.5)
         (rotationalZVelocity st + z n * 0.5))
      (modelRef w) (parent w)
  ∧ (let up := mkIntersection (mkFace (mkVector3 0 1 0)) pt dist in
     let hit := step isMobile (mount (Some obj) sc) (Pointer [up]) in
     rotationalYVelocity (state hit) = 0.5
     ∧ rotationalXVelocity (state hit) = 0
     ∧ rotationalZVelocity (state hit) = 0
     ∧ rotationalYVelocity (state (step isMobile hit (Frame intersects)))
       = 0.5 * 0.97).
Proof. destruct w as [st m sc']. cbn zeta. repeat split; reflexivity. Qed.

(** C10.  At mount the positional velocity is 0.25 and the direction -1, so
    the first frame, with no scroll and no pointer event before it, takes
    [position.y] to (y - 0.25) * 0.92 and [rotation.x] to x - 0.125: a
    fresh object goes from 0 to -0.23 and from 0 to -0.125, and each of its
    first sixty frames changes both. *)
Theorem C10_moves_without_input (isMobile : bool) (obj : Object3D) (sc : Scene)
    (intersects : list Intersection) :
  let w0 := mount (Some obj) sc in
  positionalVelocity (state w0) = 0.25
  ∧ direction (state w0) = -1
  ∧ positionY (step isMobile w0 (Frame intersects))
    = (y (position obj) + 0.25 * -1) * 0.92
  ∧ rotationX (step isMobile w0 (Frame intersects))
    = x (rotation obj) + 0.25 * 0.5 * -1 + 0 * 0.97 * 0.1
  ∧ (let fresh := mount (Some freshObject) sc in
     positionY (step isMobile fresh (Frame intersects)) = -0.23
     ∧ rotationX (step isMobile fresh (Frame intersects)) = -0.125
     ∧ (-0.23 =? 0) = false ∧ (-0.125 =? 0) = false
     ∧ forallb (frameMoves isMobile (mount (Some freshObject) emptyScene))
               (seq 0 60) = true).
Proof.
  cbn zeta. repeat split; reflexivity.
Qed.

(** ** Further properties of the integrator *)

Definition isFrame (e : Event) : bool :=
  match e with Frame _ => true | _ => false end.

Definition isPointer (e : Event) : bool :=
  match e with Pointer _ => true | _ => false end.

Definition isScroll (e : Event) : bool :=
  match e with Scroll _ => true | _ => false end.

Definition frameCount (trace : list Event) : nat :=
  length (filter (λ e, isFrame e = true) trace).

(** [k] frames of damping by [factor]. *)
Definition damped (factor : float) (k : nat) (v : float) : float :=
  Nat.iter k (λ u, u * factor) v.

(** The shading of every mesh at or below a node is the smooth one. *)
Fixpoint meshesSmooth (n : Node) : bool :=
  match n with
  | mkNode isMesh shading children =>
      (if isMesh
       then negb (flatShading shading) && smoothShading shading
            && vertexNormals shading && needsUpdate shading
            && castShadow shading
       else true)
      && forallb meshesSmooth children
  end.

(** The shadings of the objects that are no meshes, in traversal order. *)
Fixpoint otherShadings (n : Node) : list Shading :=
  match n with
  | mkNode isMesh shading children =>
      (if isMesh then [] else [shading])
      ++ flat_map otherShadings children
  end.

Fixpoint nodeCount (n : Node) : nat :=
  match n with
  | mkNode _ _ children => S (list_sum (map nodeCount children))
  end.

Lemma Node_forall_ind (P : Node → Prop)
    (step : ∀ isMesh shading children,
        Forall P children → P (mkNode isMesh shading children))
    (n : Node) : P n.
Proof.
  revert n. fix IH 1. intros [isMesh shading children]. apply step.
  induction children as [|c l IHl]; constructor; [apply IH | exact IHl].
Qed.

Lemma traverseSmooth_spec (n : Node) :
  meshesSmooth (traverseSmooth n) = true
  ∧ otherShadings (traverseSmooth n) = otherShadings n
  ∧ nodeCount (traverseSmooth n) = nodeCount n
  ∧ traverseSmooth (traverseSmooth n) = traverseSmooth n.
Proof.
  induction n as [isMesh shading children IH] using Node_forall_ind.
  cbn [traverseSmooth meshesSmooth otherShadings nodeCount].
  assert (H : forallb meshesSmooth (map traverseSmooth children) = true
              ∧ flat_map otherShadings (map traverseSmooth children)
                = flat_map otherShadings children
              ∧ map nodeCount (map traverseSmooth children)
                = map nodeCount children
              ∧ map traverseSmooth (map traverseSmooth children)
                = map traverseSmooth children).
  { induction IH as [|c l Hc _ IHl]; [done|].
    destruct Hc as (C1 & C2 & C3 & C4), IHl as (L1 & L2 & L3 & L4).
    cbn [map flat_map forallb]. by rewrite C1, C2, C3, C4, L1, L2, L3, L4. }
  destruct H as (-> & -> & -> & ->). by destruct isMesh.
Qed.

Lemma applySmoothShading_spec (scene : Scene) :
  forallb meshesSmooth (objects (applySmoothShading scene)) = true
  ∧ flat_map otherShadings (objects (applySmoothShading scene))
    = flat_map otherShadings (objects scene)
  ∧ map nodeCount (objects (applySmoothShading scene))
    = map nodeCount (objects scene)
  ∧ lights (applySmoothShading scene) = lights scene
  ∧ applySmoothShading (applySmoothShading scene) = applySmoothShading scene.
Proof.
  destruct scene as [objs ls]. unfold applySmoothShading.
  cbn [objects lights].
  induction objs as [|n objs IH]; [done|].
  destruct IH as (I1 & I2 & I3 & _ & I5).
  destruct (traverseSmooth_spec n) as (N1 & N2 & N3 & N4).
  cbn. rewrite N1, N2, N3, N4, I1, I2, I3.
  repeat split; try done. injection I5 as I5. by rewrite I5.
Qed.

(** X11.  Smooth shading, lines 42-55: after the pass every mesh of the scene,
    at any depth, is smooth-shaded with fresh normals and casts shadows;
    the objects that are no meshes keep their shading; no object is added
    or lost; the lights stay; a second pass changes nothing. *)
Theorem X_smooth_shading_reaches_every_mesh (scene : Scene) :
  let scene' := applySmoothShading scene in
  forallb meshesSmooth (objects scene') = true
  ∧ flat_map otherShadings (objects scene')
    = flat_map otherShadings (objects scene)
  ∧ map nodeCount (objects scene') = map nodeCount (objects scene)
  ∧ lights scene' = lights scene
  ∧ applySmoothShading scene' = scene'.
Proof. apply applySmoothShading_spec. Qed.

(** X12.  The set-up pass, lines 195-203, on a mounted model, for an index
    drawn inside the table: the object gets the same scale factor on its
    three axes and the preset rotation at the index drawn; its position
    stays; every mesh of the scene is smooth-shaded; the five lights follow
    the lights already there; the latch closes. *)
Theorem X_setup_pass (isMobile : bool) (obj : Object3D) (sc : Scene)
    (win : Window) (pick : nat) :
  (pick < length initRotations)%nat →
  let w := step isMobile (mount (Some obj) sc) (SetupEffect win pick) in
  let f := scaleFactor isMobile win in
  ∃ r, initRotations !! pick = Some r
       ∧ modelRef w = Some (mkObject3D (position obj) r (mkVector3 f f f))
       ∧ forallb meshesSmooth (objects (parent w)) = true
       ∧ lights (parent w) = lights sc ++ cinematicLights
       ∧ isSetup (state w) = true.
Proof.
  intros Hlt. cbn zeta.
  destruct (lookup_lt_is_Some_2 _ _ Hlt) as [r Hr].
  exists r. split; [exact Hr|].
  assert (Hmod : (pick mod length initRotations)%nat = pick)
    by (by apply Nat.mod_small).
  unfold step, setupEffect, adjustModelRotation. rewrite Hmod.
  clear Hmod Hlt. revert Hr. generalize pick. intros k Hr.
  cbn. rewrite Hr. destruct r.
  unfold setupCinematicLighting, add, setIsSetup, onParent, onModel,
    adjustModelScale. cbn.
  split; [done|]. split; [|by rewrite <- !app_assoc].
  destruct (applySmoothShading_spec sc) as [H _]. exact H.
Qed.

Lemma X_setup_pass_witness :
  (5 < length initRotations)%nat
  ∧ ∃ r, initRotations !! 5%nat = Some r
       ∧ modelRef (step false (mount (Some freshObject) emptyScene)
                     (SetupEffect (mkWindow 1920 1080) 5))
         = Some (mkObject3D (position freshObject) r
                   (mkVector3 (scaleFactor false (mkWindow 1920 1080))
                              (scaleFactor false (mkWindow 1920 1080))
                              (scaleFactor false (mkWindow 1920 1080))))
       ∧ forallb meshesSmooth
           (objects (parent (step false (mount (Some freshObject) emptyScene)
                               (SetupEffect (mkWindow 1920 1080) 5)))) = true
       ∧ lights (parent (step false (mount (Some freshObject) emptyScene)
                           (SetupEffect (mkWindow 1920 1080) 5)))
         = lights emptyScene ++ cinematicLights
       ∧ isSetup (state (step false (mount (Some freshObject) emptyScene)
                           (SetupEffect (mkWindow 1920 1080) 5))) = true.
Proof.
  split; [cbn; lia|].
  apply (X_setup_pass false freshObject emptyScene (mkWindow 1920 1080) 5%nat).
  cbn. lia.
Defined.

(** X13.  The model's scale, lines 81-96 and 205-208: a resize sets the same
    factor on the three axes and changes nothing else; the factor is NaN
    exactly when one of the two ratios is, and is otherwise at most 0.8. *)
Theorem X_resize_rescales_only (isMobile : bool) (st : State) (obj : Object3D)
    (sc : Scene) (win : Window) :
  let divisor := if isMobile then 550 else 800 in
  let f := scaleFactor isMobile win in
  step isMobile (mkWorld st (Some obj) sc) (Resize win)
  = mkWorld st (Some (mkObject3D (position obj) (rotation obj)
                        (mkVector3 f f f))) sc
  ∧ is_nan f = is_nan (innerWidth win / divisor)
               || is_nan (innerHeight win / divisor)
  ∧ (is_nan f = false → (f <=? 0.8) = true).
Proof.
  cbn zeta. split; [reflexivity|]. unfold scaleFactor.
  set (a := innerWidth win / (if isMobile then 550 else 800)).
  set (b := innerHeight win / (if isMobile then 550 else 800)).
  unfold JS.Math_min. cbn [existsb].
  change (is_nan 0.8) with false. rewrite !Bool.orb_false_r.
  destruct (is_nan a || is_nan b) eqn:Hab.
  { change (is_nan nan) with true. by split. }
  apply orb_false_elim in Hab as [Ha Hb].
  cbn [fold_left].
  set (l2 := JS.min_step (JS.min_step infinity a) b).
  assert (Hl2 : is_nan l2 = false)
    by (apply FloatOrder.min_step_not_nan;
        [apply FloatOrder.min_step_not_nan|]; done).
  rewrite FloatOrder.min_step_nonzero by reflexivity.
  destruct (0.8 <? l2) eqn:Hlt; [by split|].
  split; [done|]. intros _. by apply FloatOrder.ltb_false_leb.
Qed.

(** X14.  Scroll and pointer events act on the velocities and the direction
    alone: along any run of them the object behind [modelRef], the scene
    and the latch are what they were.  The object moves in frames only. *)
Theorem X_inputs_move_nothing (isMobile : bool) (w : World) (trace : list Event) :
  forallb (λ e, isScroll e || isPointer e) trace = true →
  modelRef (run isMobile w trace) = modelRef w
  ∧ parent (run isMobile w trace) = parent w
  ∧ isSetup (state (run isMobile w trace)) = isSetup (state w).
Proof.
  revert w. induction trace as [|e trace IH]; intros w Ht; [done|].
  cbn in Ht. apply andb_prop in Ht as [He Ht].
  change (run isMobile w (e :: trace))
    with (run isMobile (step isMobile w e) trace).
  destruct (IH (step isMobile w e) Ht) as (-> & -> & ->).
  destruct w as [[su ls d v rx ry rz] m sc].
  destruct e as [win pick| win | sy | ints | ints]; try done.
  - cbn. unfold handleScroll. by destruct (_ =? _).
  - by destruct ints.
Qed.

Lemma X_inputs_move_nothing_witness :
  forallb (λ e, isScroll e || isPointer e)
          [Scroll 120; Pointer []; Scroll 40] = true
  ∧ modelRef (run false (mount (Some freshObject) emptyScene)
                [Scroll 120; Pointer []; Scroll 40])
    = Some freshObject.
Proof.
  split; [reflexivity|].
  exact (proj1 (X_inputs_move_nothing false
    (mount (Some freshObject) emptyScene)
    [Scroll 120; Pointer []; Scroll 40] eq_refl)).
Defined.

Lemma damped_frame factor k v :
  damped factor k (v * factor) = damped factor (S k) v.
Proof. unfold damped. by rewrite Nat.iter_succ_r. Qed.

(** X16.  Damping of the rotational velocities: with a model behind [modelRef]
    and no pointer event, each channel after a run is its starting value
    multiplied by 0.97 once per frame of the run, whatever scrolls,
    resizes and effect runs come between. *)
Theorem X_rotational_decay (isMobile : bool) (w : World) (trace : list Event) :
  is_Some (modelRef w) →
  forallb (λ e, negb (isPointer e)) trace = true →
  let w' := run isMobile w trace in
  let k := frameCount trace in
  rotationalXVelocity (state w') = damped 0.97 k (rotationalXVelocity (state w))
  ∧ rotationalYVelocity (state w') = damped 0.97 k (rotationalYVelocity (state w))
  ∧ rotationalZVelocity (state w') = damped 0.97 k (rotationalZVelocity (state w)).
Proof.
  cbn zeta. revert w. induction trace as [|e trace IH]; intros w Hm Ht; [done|].
  cbn in Ht. apply andb_prop in Ht as [He Ht].
  change (run isMobile w (e :: trace))
    with (run isMobile (step isMobile w e) trace).
  destruct (IH (step isMobile w e)) as (-> & -> & ->);
    [by apply step_modelRef_is_Some | done |].
  destruct Hm as [o Ho]. destruct w as [[su ls d v rx ry rz] m sc].
  cbn in Ho. subst m.
  destruct e as [win pick| win | sy | ints | ints]; try done.
  - unfold frameCount. cbn. by destruct su.
  - unfold frameCount. cbn. unfold handleScroll. by destruct (_ =? _).
  - unfold frameCount. rewrite filter_cons_True by done.
    cbn [length]. cbn. by rewrite !damped_frame.
Qed.

Lemma X_rotational_decay_witness :
  is_Some (modelRef (step false (mount (Some freshObject) emptyScene)
                       (Pointer [mkIntersection (mkFace (mkVector3 0 1 0))
                                                (mkVector3 0 0 0) 1])))
  ∧ forallb (λ e, negb (isPointer e)) [Frame []; Scroll 10; Frame []] = true
  ∧ rotationalYVelocity
      (state (run false
                (step false (mount (Some freshObject) emptyScene)
                   (Pointer [mkIntersection (mkFace (mkVector3 0 1 0))
                                            (mkVector3 0 0 0) 1]))
                [Frame []; Scroll 10; Frame []]))
    = 0.5 * 0.97 * 0.97.
Proof.
  split; [by eexists|]. split; [reflexivity|].
  refine (eq_trans (proj1 (proj2 (X_rotational_decay false
    (step false (mount (Some freshObject) emptyScene)
       (Pointer [mkIntersection (mkFace (mkVector3 0 1 0))
                                (mkVector3 0 0 0) 1]))
    [Frame []; Scroll 10; Frame []] _ eq_refl))) _).
  - by eexists.
  - reflexivity.
Defined.

(** X17.  Damping of the positional velocity: with a model and no scroll event,
    it is its starting value multiplied by 0.91 once per frame of the run;
    the direction and the recorded offset stay. *)
Theorem X_positional_decay (isMobile : bool) (w : World) (trace : list Event) :
  is_Some (modelRef w) →
  forallb (λ e, negb (isScroll e)) trace = true →
  let w' := run isMobile w trace in
  positionalVelocity (state w')
  = damped 0.91 (frameCount trace) (positionalVelocity (state w))
  ∧ direction (state w') = direction (state w)
  ∧ lastScrollY (state w') = lastScrollY (state w).
Proof.
  cbn zeta. revert w. induction trace as [|e trace IH]; intros w Hm Ht; [done|].
  cbn in Ht. apply andb_prop in Ht as [He Ht].
  change (run isMobile w (e :: trace))
    with (run isMobile (step isMobile w e) trace).
  destruct (IH (step isMobile w e)) as (-> & -> & ->);
    [by apply step_modelRef_is_Some | done |].
  destruct Hm as [o Ho]. destruct w as [[su ls d v rx ry rz] m sc].
  cbn in Ho. subst m.
  destruct e as [win pick| win | sy | ints | ints]; try done.
  - unfold frameCount. cbn. by destruct su.
  - unfold frameCount. cbn. by destruct ints.
  - unfold frameCount. rewrite filter_cons_True by done.
    cbn [length]. cbn. by rewrite !damped_frame.
Qed.

Lemma X_positional_decay_witness :
  is_Some (modelRef (mount (Some freshObject) emptyScene))
  ∧ forallb (λ e, negb (isScroll e)) [Frame []; Pointer []; Frame []] = true
  ∧ positionalVelocity
      (state (run false (mount (Some freshObject) emptyScene)
                [Frame []; Pointer []; Frame []]))
    = 0.25 * 0.91 * 0.91.
Proof.
  split; [by eexists|]. split; [reflexivity|].
  refine (eq_trans (proj1 (X_positional_decay false
    (mount (Some freshObject) emptyScene)
    [Frame []; Pointer []; Frame []] _ eq_refl)) _).
  - by eexists.
  - reflexivity.
Defined.

(** X18.  The direction is always one of -1, 0 and +1, after any events. *)
Theorem X_direction_is_a_sign (isMobile : bool) (handle : option Object3D)
    (sc : Scene) (trace : list Event) :
  let d := direction (state (run isMobile (mount handle sc) trace)) in
  d = -1 ∨ d = 0 ∨ d = 1.
Proof.
  cbn zeta.
  enough (H : ∀ w, (direction (state w) = -1 ∨ direction (state w) = 0
                    ∨ direction (state w) = 1) →
              direction (state (run isMobile w trace)) = -1
              ∨ direction (state (run isMobile w trace)) = 0
              ∨ direction (state (run isMobile w trace)) = 1)
    by (apply H; by left).
  induction trace as [|e trace IH]; intros w Hw; [done|].
  change (run isMobile w (e :: trace))
    with (run isMobile (step isMobile w e) trace).
  apply IH. destruct w as [[su ls d v rx ry rz] m sc'].
  destruct e as [win pick| win | sy | ints | ints]; cbn in *.
  - destruct m, su; cbn; try done; by destruct (initRotations !! _).
  - done.
  - unfold handleScroll. destruct (_ =? _); cbn; [auto|].
    destruct (_ <? _); auto.
  - by destruct ints.
  - by destruct m.
Qed.

(** X19.  A scroll event at the offset just recorded stops the drift and keeps
    the velocity: the direction becomes 0, the velocity and the offset stay
    as the first event left them. *)
Theorem X_repeated_offset_stops_drift (isMobile : bool) (w : World)
    (scrollY : float) :
  (scrollY =? scrollY) = true →
  let once := step isMobile w (Scroll scrollY) in
  let twice := step isMobile once (Scroll scrollY) in
  direction (state twice) = 0
  ∧ positionalVelocity (state twice) = positionalVelocity (state once)
  ∧ lastScrollY (state twice) = scrollY
  ∧ modelRef twice = modelRef w.
Proof.
  intros Hy. cbn zeta. destruct w as [[su ls d v rx ry rz] m sc].
  cbn. unfold handleScroll. cbn.
  destruct (scrollY =? ls); cbn; rewrite Hy; done.
Qed.

Lemma X_repeated_offset_stops_drift_witness :
  (80 =? 80) = true
  ∧ direction (state (step false
       (step false (mount (Some freshObject) emptyScene) (Scroll 80))
       (Scroll 80))) = 0.
Proof.
  split; [reflexivity|].
  exact (proj1 (X_repeated_offset_stops_drift false
    (mount (Some freshObject) emptyScene) 80 eq_refl)).
Defined.

End ThreeSceneProofs.
